(** * wordsmith.py: homophonous phrases, a shallow embedding

    The program looks every word of a phrase up in the CMU pronouncing
    dictionary, concatenates one pronunciation per word, cuts the resulting
    phoneme sequence in every possible way and maps every block back to the
    words that are pronounced that way.

    Layout of the development:
    - [Py]: the Python values the program manipulates and the library
      functions it imports (itertools.product, more_itertools.partitions,
      str.join, dict access);
    - [Wordsmith]: the functions of wordsmith.py, in a small state and
      exception monad over the module's globals and standard output;
    - the properties of both. *)

From stdpp Require Import base option list gmap strings pretty.
From Stdlib Require Import Ascii Lia.

Open Scope string_scope.
Open Scope list_scope.
Open Scope nat_scope.

(** ** Python values and imported library functions *)

Module Py.

(** A phoneme symbol is a str ([string]), a pronunciation a list or tuple of
    them ([list string]). *)

(** The key a KeyError carries: a word, or a pronunciation made a tuple. *)
Inductive key : Type :=
  | KeyStr (s : string)
  | KeyTuple (t : list string).

(** The only exception the program raises. *)
Inductive exn : Type :=
  | KeyError (k : key).

Inductive result (A : Type) : Type :=
  | Ok (a : A)
  | Raise (e : exn).
Arguments Ok {A} a.
Arguments Raise {A} e.

(** [sequence[i:j]] for [0 <= i], [0 <= j]: out-of-range bounds are clamped. *)
Definition slice {A} (sequence : list A) (i j : nat) : list A :=
  take (j - i) (drop i sequence).

(** [range(a, b)]. *)
Definition range (a b : nat) : list nat := seq a (b - a).

(** [zip(a, b)], stopping at the shorter argument. *)
Fixpoint zip {A B} (a : list A) (b : list B) : list (A * B) :=
  match a, b with
  | x :: a', y :: b' => (x, y) :: zip a' b'
  | _, _ => []
  end.

(** [sep.join(words)]. *)
Fixpoint join (sep : string) (words : list string) : string :=
  match words with
  | [] => ""
  | [w] => w
  | w :: rest => w +:+ sep +:+ join sep rest
  end.

(** [itertools.product] of the unpacked [pools], as the library documents it:
<<
    result = [[]]
    for pool in pools:
        result = [x+[y] for x in result for y in pool]
>> *)
Definition product_step {A} (result : list (list A)) (pool : list A)
  : list (list A) :=
  x ← result; y ← pool; [x ++ [y]].

Definition product {A} (pools : list (list A)) : list (list A) :=
  foldl product_step [[]] pools.

(** [itertools.combinations(s, r)]: the [r]-element subsequences of [s], in
    lexicographic order of their positions. *)
Fixpoint combinations {A} (s : list A) (r : nat) : list (list A) :=
  match r, s with
  | 0, _ => [[]]
  | S _, [] => []
  | S r', x :: s' => (cons x <$> combinations s' r') ++ combinations s' r
  end.

(** [more_itertools.powerset(s)]:
    [chain.from_iterable(combinations(s, r) for r in range(len(s) + 1))]. *)
Definition powerset {A} (s : list A) : list (list A) :=
  r ← range 0 (length s + 1); combinations s r.

(** Modelled from the spec: [partitions] is imported from the more_itertools
    package, whose source is not part of the repository. The spec asks for
    every way of cutting the sequence at the n-1 boundaries between adjacent
    symbols, each boundary cut or not; the definition is the library's
    realisation of it:
<<
    sequence = list(iterable)
    n = len(sequence)
    for i in powerset(range(1, n)):
        yield [sequence[i:j] for i, j in zip((0,) + i, i + (n,))]
>> *)
Definition partitions {A} (sequence : list A) : list (list (list A)) :=
  let n := length sequence in
  (λ i, (λ '(a, b), slice sequence a b) <$> zip (0 :: i) (i ++ [n]))
    <$> powerset (range 1 n).

End Py.

Import Py.

(** ** wordsmith.py *)

Module Wordsmith.

(** The CMU pronouncing dictionary, [cmudict.dict()]: a dict from words to
    their pronunciations, kept as its items in iteration order. Its keys are
    pairwise different ([dict_wf]). *)
Definition dict : Type := list (string * list (list string)).

Definition dict_wf (d : dict) : Prop := NoDup d.*1.

(** [d[word]]: [None] stands for the KeyError. *)
Fixpoint dict_getitem (d : dict) (word : string) : option (list (list string)) :=
  match d with
  | [] => None
  | (w, its_pronunciations) :: d' =>
      if decide (w = word) then Some its_pronunciations
      else dict_getitem d' word
  end.

(** The two statements of the inner loop body of [invert_CMPD]. *)
Definition invert_pronunciation (word : string)
    (inverted : gmap (list string) (list string)) (pronunciation : list string)
  : gmap (list string) (list string) :=
  let inverted :=
    <[pronunciation := default [] (inverted !! pronunciation)]> inverted in
  alter (λ bucket, bucket ++ [word]) pronunciation inverted.

Definition invert_CMPD (CMPD : dict) : gmap (list string) (list string) :=
  foldl (λ inverted '(word, its_pronunciations),
           foldl (invert_pronunciation word) inverted its_pronunciations)
        ∅ CMPD.

(** The module's globals and the standard output written so far. *)
Record globals : Type := Globals {
  CMPD : dict;
  CMPD_INVERTED : gmap (list string) (list string);
  stdout : list string
}.

(** The state after the module is imported with dictionary [cmudict]. *)
Definition module_init (cmudict : dict) : globals :=
  {| CMPD := cmudict; CMPD_INVERTED := invert_CMPD cmudict; stdout := [] |}.

(** Computations: they read and write the globals and return or raise. *)
Definition M (A : Type) : Type := globals → globals * result A.

#[global] Instance M_ret : MRet M := λ A a g, (g, Ok a).
#[global] Instance M_bind : MBind M := λ A B f m g,
  match m g with
  | (g', Ok a) => f a g'
  | (g', Raise e) => (g', Raise e)
  end.

Definition raise {A} (e : exn) : M A := λ g, (g, Raise e).

(** [try: m  except KeyError as e: handler e]. *)
Definition try_except {A} (m : M A) (handler : exn → M A) : M A := λ g,
  match m g with
  | (g', Ok a) => (g', Ok a)
  | (g', Raise e) => handler e g'
  end.

(** [print(line)]. *)
Definition print (line : string) : M unit := λ g,
  ({| CMPD := CMPD g; CMPD_INVERTED := CMPD_INVERTED g;
      stdout := stdout g ++ [line] |}, Ok tt).

(** [CMPD[word]]. *)
Definition CMPD_getitem (word : string) : M (list (list string)) := λ g,
  match dict_getitem (CMPD g) word with
  | Some its_pronunciations => (g, Ok its_pronunciations)
  | None => (g, Raise (KeyError (KeyStr word)))
  end.

(** [CMPD_INVERTED[tuple(word)]]. *)
Definition CMPD_INVERTED_getitem (word : list string) : M (list string) := λ g,
  match CMPD_INVERTED g !! word with
  | Some words => (g, Ok words)
  | None => (g, Raise (KeyError (KeyTuple word)))
  end.

(** [for x in xs: body], the loop's local variables threaded through. *)
Fixpoint for_in {A L} (xs : list A) (body : L → A → M L) (locals : L) : M L :=
  match xs with
  | [] => mret locals
  | x :: xs' => locals' ← body locals x; for_in xs' body locals'
  end.

Definition get_word_pronunciations (words : list string)
  : M (list (list (list string))) :=
  let get_pronunciation (word : string) : M (list (list string)) :=
    try_except (CMPD_getitem word) (λ e, raise e) in
  mapM get_pronunciation words.

Definition get_phrase_pronunciations
    (word_pronunciations : list (list (list string))) : list (list string) :=
  let combos := product word_pronunciations in
  let flatten_combo (combo : list (list string)) : list string :=
    word ← combo; phoneme ← word; [phoneme] in
  flatten_combo <$> combos.

Definition part_to_phrases (partition : list (list string)) : M (list string) :=
  word_pronunciations ←
    for_in partition (λ word_pronunciations word,
      try_except
        (words ← CMPD_INVERTED_getitem word;
         mret (word_pronunciations ++ [words]))
        (λ e, raise e)) [];
  let phrases := product word_pronunciations in
  let phrases := join " " <$> phrases in
  mret phrases.

Definition get_phrases (phrase_pronunciations : list (list string))
  : M (list string) :=
  _ ← print ("Looking over " +:+ pretty (length phrase_pronunciations)
             +:+ " different pronunciations of sentence...");
  for_in phrase_pronunciations (λ phrases pronunciation,
    for_in (partitions pronunciation) (λ phrases part,
      try_except
        (new ← part_to_phrases part; mret (phrases ++ new))
        (λ _, mret phrases)) phrases) [].

Section Search.

(** [str.lower] and [nltk.word_tokenize]: the tokenisation of the phrase is
    left to the caller's libraries. *)
Variable lower : string → string.
Variable word_tokenize : string → list string.

Definition wordsmith (phrase : string) : M (list string) :=
  let phrase := lower phrase in
  let words := word_tokenize phrase in
  word_pronunciations ← get_word_pronunciations words;
  let phrase_pronunciations := get_phrase_pronunciations word_pronunciations in
  phrases ← get_phrases phrase_pronunciations;
  mret phrases.

End Search.

End Wordsmith.

Import Wordsmith.

(** *** Sample data *)

Module Sample.

(** ASCII lower-casing and splitting at blanks, enough for the examples. *)
Definition lower_ascii (c : ascii) : ascii :=
  let n := nat_of_ascii c in
  if Nat.leb 65 n && Nat.leb n 90 then ascii_of_nat (n + 32) else c.

Fixpoint lower (s : string) : string :=
  match s with
  | EmptyString => EmptyString
  | String c s' => String (lower_ascii c) (lower s')
  end.

Fixpoint split_go (s : string) (word : string) : list string :=
  match s with
  | EmptyString => if decide (word = "") then [] else [word]
  | String c s' =>
      if decide (c = " "%char)
      then (if decide (word = "") then [] else [word]) ++ split_go s' ""
      else split_go s' (word +:+ String c EmptyString)
  end.

Definition word_tokenize (s : string) : list string := split_go s "".

Definition cmudict : dict :=
  [ ("ice",    [["AY1"; "S"]]);
    ("i",      [["AY1"]]);
    ("eye",    [["AY1"]]);
    ("cream",  [["K"; "R"; "IY1"; "M"]]);
    ("scream", [["S"; "K"; "R"; "IY1"; "M"]]);
    ("hear",   [["HH"; "IY1"; "R"]]);
    ("here",   [["HH"; "IY1"; "R"]]);
    ("pajamas", [["P"; "AH0"; "JH"; "AA1"; "M"; "AH0"; "Z"];
                 ["P"; "AH0"; "JH"; "AE1"; "M"; "AH0"; "Z"]]) ].

Definition run (phrase : string) : globals * result (list string) :=
  wordsmith lower word_tokenize phrase (module_init cmudict).

End Sample.

(** ** Reference definitions used in the statements *)

(** The cross product by recursion on the pools: one choice from the first
    pool, followed by a choice for the others. *)
Fixpoint cross {A} (pools : list (list A)) : list (list A) :=
  match pools with
  | [] => [[]]
  | pool :: pools' => y ← pool; cons y <$> cross pools'
  end.

(** The number of combinations: the product of the sizes of the pools. *)
Definition pool_sizes {A} (pools : list (list A)) : nat :=
  foldr (λ pool n, length pool * n) 1 pools.

(** The blocks that the cut positions [cuts] carve out of [sequence] between
    positions [a] and [n]. *)
Fixpoint blocks_between {A} (sequence : list A) (a : nat) (cuts : list nat)
    (n : nat) : list (list A) :=
  match cuts with
  | [] => [slice sequence a n]
  | c :: cuts' => slice sequence a c :: blocks_between sequence c cuts' n
  end.

(** [a < c1 < ... < ck < n]. *)
Fixpoint increasing_between (a : nat) (cuts : list nat) (n : nat) : Prop :=
  match cuts with
  | [] => a < n
  | c :: cuts' => a < c ∧ increasing_between c cuts' n
  end.

(** A partition of [sequence] in the sense of the data model: nonempty blocks
    whose concatenation is the sequence. *)
Definition is_partition {A} (blocks : list (list A)) (sequence : list A) : Prop :=
  Forall (λ block, block ≠ []) blocks ∧ mjoin blocks = sequence.

(** The (word, pronunciation) pairs of the table, in the order in which
    [invert_CMPD] visits them. *)
Definition pairs (d : dict) : list (string * list string) :=
  '(word, its_pronunciations) ← d;
  pronunciation ← its_pronunciations; [(word, pronunciation)].

(** The words of the pairs whose pronunciation is [pronunciation], one
    occurrence per pair, in visiting order. *)
Definition bucket_of (d : dict) (pronunciation : list string) : list string :=
  (filter (λ pair, pair.2 = pronunciation) (pairs d)).*1.

(** The index after the visit of one more pair. *)
Definition invert_pair (inverted : gmap (list string) (list string))
    (pair : string * list string) : gmap (list string) (list string) :=
  invert_pronunciation pair.1 inverted pair.2.

(** The values of [keys] in order, or the error of the first key without a
    value: what successive subscriptions [d[k]] leave behind. *)
Fixpoint lookup_each {K V} (get : K → option V) (err : K → exn)
    (keys : list K) : result (list V) :=
  match keys with
  | [] => Ok []
  | k :: keys' =>
      match get k with
      | None => Raise (err k)
      | Some v =>
          match lookup_each get err keys' with
          | Ok vs => Ok (v :: vs)
          | Raise e => Raise e
          end
      end
  end.

(** The index of a state is the one built from its table, as it is after
    the module is initialised. *)
Definition index_built (g : globals) : Prop :=
  CMPD_INVERTED g = invert_CMPD (CMPD g).

(** What one partition adds to the result of [get_phrases]: the phrases
    [part_to_phrases] returns, nothing when it raises. *)
Definition contribution (g : globals) (part : list (list string)) : list string :=
  match (part_to_phrases part g).2 with
  | Ok phrases => phrases
  | Raise _ => []
  end.

(** The contributions of all partitions of all pronunciations, in order. *)
Definition contributions (g : globals) (phrase_pronunciations : list (list string))
  : list string :=
  pronunciation ← phrase_pronunciations;
  part ← partitions pronunciation; contribution g part.

(** The line [get_phrases] prints. *)
Definition looking_over (n : nat) : string :=
  "Looking over " +:+ pretty n +:+ " different pronunciations of sentence...".

(** The state after [line] is printed. *)
Definition printed (g : globals) (line : string) : globals :=
  {| CMPD := CMPD g; CMPD_INVERTED := CMPD_INVERTED g;
     stdout := stdout g ++ [line] |}.

(** ** The script *)

Module Script.

(** The line feed of the two f-strings of the script. *)
Definition newline : string := String "010"%char EmptyString.

Section Main.

Variable lower : string → string.
Variable word_tokenize : string → list string.

(** The body of [if __name__ == '__main__'], from the point where argparse
    has left the positional argument in [args.phrase[0]]. An exception of
    [wordsmith] is not caught. *)
Definition main (phrase : string) : M unit :=
  _ ← print ("Finding phrases homophonous to " +:+ phrase +:+ "..." +:+ newline);
  phrases ← wordsmith lower word_tokenize phrase;
  _ ← print (newline +:+ "Done! See below:");
  for_in phrases (λ _ phrase, print phrase) tt.

End Main.

End Script.

(** The state after the lines [lines] are printed, one [print] each. *)
Definition printed_all (g : globals) (lines : list string) : globals :=
  {| CMPD := CMPD g; CMPD_INVERTED := CMPD_INVERTED g;
     stdout := stdout g ++ lines |}.

(** [word] is listed with [pronunciation] in the table. *)
Definition pronounced (d : dict) (word : string) (pronunciation : list string)
  : Prop :=
  ∃ its_pronunciations,
    (word, its_pronunciations) ∈ d ∧ pronunciation ∈ its_pronunciations.

(** The first and the third line of the script. *)
Definition finding_line (phrase : string) : string :=
  "Finding phrases homophonous to " +:+ phrase +:+ "..." +:+ Script.newline.

Definition done_line : string := Script.newline +:+ "Done! See below:".

(** * Properties *)

(** ** Sanity checks of the embedding *)

Example product_ex :
  product [["a"; "b"]; ["c"]; ["d"; "e"]] =
  [["a"; "c"; "d"]; ["a"; "c"; "e"]; ["b"; "c"; "d"]; ["b"; "c"; "e"]].
Proof. reflexivity. Qed.

Example combinations_ex :
  combinations [1; 2; 3; 4] 2 = [[1; 2]; [1; 3]; [1; 4]; [2; 3]; [2; 4]; [3; 4]].
Proof. reflexivity. Qed.

Example partitions_ex :
  partitions ["a"; "b"; "c"] =
  [[["a"; "b"; "c"]]; [["a"]; ["b"; "c"]]; [["a"; "b"]; ["c"]];
   [["a"]; ["b"]; ["c"]]].
Proof. reflexivity. Qed.

Example partitions_nil : partitions (@nil string) = [[[]]].
Proof. reflexivity. Qed.

Example join_ex : join " " ["i"; "scream"] = "i scream".
Proof. reflexivity. Qed.

Example wordsmith_ice_cream :
  (Sample.run "Ice cream").2 = Ok ["i scream"; "eye scream"; "ice cream"].
Proof. vm_compute. reflexivity. Qed.

Example wordsmith_ice_cream_stdout :
  stdout (Sample.run "Ice cream").1 =
  ["Looking over 1 different pronunciations of sentence..."].
Proof. vm_compute. reflexivity. Qed.

Example wordsmith_here :
  (Sample.run "here").2 = Ok ["hear"; "here"].
Proof. vm_compute. reflexivity. Qed.

Example wordsmith_unknown :
  Sample.run "ice zzz cream" =
  (module_init Sample.cmudict, Raise (KeyError (KeyStr "zzz"))).
Proof. vm_compute. reflexivity. Qed.

(** ** The cross product *)

Lemma list_bind_assoc {A B C} (f : A → list B) (g : B → list C) (l : list A) :
  (l ≫= f) ≫= g = l ≫= λ x, f x ≫= g.
Proof.
  induction l as [|x l IH]; [done|].
  by rewrite !bind_cons, bind_app, IH.
Qed.

Section Product.

Context {A : Type}.
Implicit Types (pools : list (list A)) (pool c : list A).

Lemma product_step_cross (result : list (list A)) pools :
  foldl product_step result pools = x ← result; app x <$> cross pools.
Proof.
  revert result. induction pools as [|pool pools IH]; intros result; simpl.
  - induction result as [|x result IHr]; [done|].
    rewrite bind_cons, <- IHr. simpl. by rewrite app_nil_r.
  - rewrite IH. unfold product_step. rewrite list_bind_assoc.
    apply list_bind_ext; [|done]. intros x.
    induction pool as [|y pool IHp]; [done|].
    rewrite !bind_cons, bind_app, fmap_app, IHp. f_equal.
    rewrite bind_singleton, <- list_fmap_compose.
    apply list_fmap_ext. intros ? c _. simpl. by rewrite <- app_assoc.
Qed.

Lemma product_cross pools : product pools = cross pools.
Proof.
  unfold product. rewrite product_step_cross, bind_singleton.
  apply list_fmap_id.
Qed.

Lemma elem_of_cross c pools : c ∈ cross pools ↔ Forall2 (λ y pool, y ∈ pool) c pools.
Proof.
  revert c. induction pools as [|pool pools IH]; intros c; simpl.
  - rewrite list_elem_of_singleton. split; [intros ->; constructor|].
    by intros ->%Forall2_nil_inv_r.
  - rewrite list_elem_of_bind. split.
    + intros (y & (c' & -> & Hc')%list_elem_of_fmap & Hy).
      constructor; [done|]. by apply IH.
    + intros (y & c' & Hy & Hc' & ->)%Forall2_cons_inv_r.
      exists y. split; [|done]. apply list_elem_of_fmap. exists c'.
      split; [done|]. by apply IH.
Qed.

Lemma length_cross pools : length (cross pools) = pool_sizes pools.
Proof.
  induction pools as [|pool pools IH]; [done|]. simpl. rewrite <- IH.
  induction pool as [|y pool IHp]; [done|].
  rewrite bind_cons, length_app, length_fmap, IHp. simpl. lia.
Qed.

Lemma NoDup_cross pools : Forall NoDup pools → NoDup (cross pools).
Proof.
  induction 1 as [|pool pools Hpool _ IH]; simpl.
  - apply NoDup_singleton.
  - apply NoDup_bind; [| |done].
    + intros y1 y2 c _ _ (c1 & -> & _)%list_elem_of_fmap
        (c2 & [= ->] & _)%list_elem_of_fmap. done.
    + intros y _. apply (NoDup_fmap_2 _). done.
Qed.

Lemma cross_singleton pool : cross [pool] = (λ y, [y]) <$> pool.
Proof.
  simpl. induction pool as [|y pool IH]; [done|].
  by rewrite bind_cons, IH.
Qed.
End Product.

(** ** The phrase expander *)

Lemma list_bind_singleton {A} (l : list A) : (x ← l; [x]) = l.
Proof. induction l as [|x l IH]; [done|]. by rewrite bind_cons, IH. Qed.

Lemma get_phrase_pronunciations_cross (wps : list (list (list string))) :
  get_phrase_pronunciations wps = mjoin (M:=list) <$> cross wps.
Proof.
  unfold get_phrase_pronunciations. rewrite product_cross.
  apply list_fmap_ext. intros _ combo _.
  rewrite list_join_bind. apply list_bind_ext; [|done].
  intros word. apply list_bind_singleton.
Qed.

(** C3. The phrase expander returns the flattened combinations of the cross
    product of the per-word pronunciation lists, in the order of the cross
    product: a combination is a choice of one pronunciation per word, in word
    order; the output has as many entries as the product of the per-word
    counts; for a single word the output is the word's pronunciation list. *)
Theorem C3_phrase_expander (word_pronunciations : list (list (list string))) :
  get_phrase_pronunciations word_pronunciations
    = mjoin (M:=list) <$> cross word_pronunciations
  ∧ (∀ combo, combo ∈ cross word_pronunciations ↔
       Forall2 (λ pronunciation its_pronunciations,
                  pronunciation ∈ its_pronunciations)
               combo word_pronunciations)
  ∧ length (get_phrase_pronunciations word_pronunciations)
    = pool_sizes word_pronunciations
  ∧ (∀ its_pronunciations,
       get_phrase_pronunciations [its_pronunciations] = its_pronunciations).
Proof.
  split_and!.
  - apply get_phrase_pronunciations_cross.
  - intros combo. apply elem_of_cross.
  - by rewrite get_phrase_pronunciations_cross, length_fmap, length_cross.
  - intros prons. rewrite get_phrase_pronunciations_cross, cross_singleton.
    rewrite <- list_fmap_compose. rewrite <- (list_fmap_id prons) at 2.
    apply list_fmap_ext. intros _ p _. simpl. apply app_nil_r.
Qed.

Example phrase_expander_two_words :
  get_phrase_pronunciations
    [[["P"; "AH0"; "JH"; "AA1"; "M"; "AH0"; "Z"];
      ["P"; "AH0"; "JH"; "AE1"; "M"; "AH0"; "Z"]]; [["HH"; "IY1"; "R"]]] =
  [["P"; "AH0"; "JH"; "AA1"; "M"; "AH0"; "Z"; "HH"; "IY1"; "R"];
   ["P"; "AH0"; "JH"; "AE1"; "M"; "AH0"; "Z"; "HH"; "IY1"; "R"]].
Proof. reflexivity. Qed.

(** ** Combinations and the powerset *)

Lemma length_bind_sum {A B} (f : A → list B) (l : list A) :
  length (l ≫= f) = sum_list_with (λ x, length (f x)) l.
Proof.
  induction l as [|x l IH]; [done|].
  by rewrite bind_cons, length_app, IH.
Qed.

Section Powerset.

Context {A : Type}.
Implicit Types (s c : list A) (r : nat).

Lemma elem_of_combinations c s r :
  c ∈ combinations s r ↔ c `sublist_of` s ∧ length c = r.
Proof.
  revert c r. induction s as [|x s IH]; intros c [|r]; simpl.
  - rewrite list_elem_of_singleton, sublist_nil_r.
    split; [by intros ->|by intros [-> _]].
  - rewrite elem_of_nil, sublist_nil_r. split; [done|by intros [-> ?]].
  - rewrite list_elem_of_singleton. split.
    + intros ->. split; [apply sublist_nil_l|done].
    + intros [_ Hlen]. by apply nil_length_inv.
  - rewrite elem_of_app, list_elem_of_fmap, sublist_cons_r. split.
    + intros [(c' & -> & [Hsub <-]%IH)|[Hsub <-]%IH]; [|by auto].
      split; [|done]. right. by exists c'.
    + intros [[Hsub|(c' & -> & Hsub)] Hlen].
      * right. by apply IH.
      * left. exists c'. split; [done|]. apply IH. simpl in Hlen.
        split; [done|lia].
Qed.

Lemma elem_of_powerset c s : c ∈ powerset s ↔ c `sublist_of` s.
Proof.
  unfold powerset, range. rewrite list_elem_of_bind. split.
  - by intros (r & [Hsub _]%elem_of_combinations & _).
  - intros Hsub. exists (length c). split; [by apply elem_of_combinations|].
    apply elem_of_seq. apply sublist_length in Hsub. lia.
Qed.

Lemma NoDup_combinations s r : NoDup s → NoDup (combinations s r).
Proof.
  intros Hs. revert r. induction Hs as [|x s Hx Hs IH]; intros [|r]; simpl;
    try apply NoDup_singleton; try apply NoDup_nil_2.
  apply NoDup_app. split_and!.
  - apply (NoDup_fmap_2 _), IH.
  - intros c (c' & -> & _)%list_elem_of_fmap [Hsub _]%elem_of_combinations.
    apply Hx. eapply sublist_submseteq, submseteq_cons_l in Hsub.
    destruct Hsub as (k & Hk & _). rewrite Hk. apply list_elem_of_here.
  - apply IH.
Qed.

Lemma NoDup_powerset s : NoDup s → NoDup (powerset s).
Proof.
  intros Hs. unfold powerset. apply NoDup_bind.
  - intros r1 r2 c _ _ [_ <-]%elem_of_combinations [_ <-]%elem_of_combinations.
    done.
  - intros r _. by apply NoDup_combinations.
  - apply NoDup_seq.
Qed.

Lemma combinations_0 s : combinations s 0 = [[]].
Proof. by destruct s. Qed.

Lemma sum_combinations_cons x s (l : list nat) :
  sum_list_with (λ r, length (combinations (x :: s) r)) (S <$> l)
  = sum_list_with (λ r, length (combinations s r)) l
    + sum_list_with (λ r, length (combinations s r)) (S <$> l).
Proof.
  induction l as [|r l IHl]; [done|].
  rewrite !fmap_cons.
  change (sum_list_with ?f (?a :: ?k)) with (f a + sum_list_with f k).
  cbn beta. rewrite IHl.
  change (combinations (x :: s) (S r))
    with ((cons x <$> combinations s r) ++ combinations s (S r)).
  rewrite length_app, length_fmap. lia.
Qed.

Lemma count_combinations s m :
  length s ≤ m →
  sum_list_with (λ r, length (combinations s r)) (seq 0 (S m)) = 2 ^ length s.
Proof.
  revert m. induction s as [|x s IH]; intros m Hm.
  - simpl. rewrite <- fmap_S_seq. clear.
    induction (seq 0 m) as [|r l IHl]; [done|]. csimpl in *. lia.
  - destruct m as [|m]; [simpl in Hm; lia|]. simpl in Hm.
    pose proof (IH m ltac:(lia)) as IH1.
    pose proof (IH (S m) ltac:(lia)) as IH2.
    change (seq 0 (S (S m))) with (0 :: seq 1 (S m)) in *.
    rewrite <- fmap_S_seq in *.
    cbn [sum_list_with] in *. rewrite !combinations_0 in *.
    change (length (x :: s)) with (S (length s)). rewrite Nat.pow_succ_r'.
    rewrite sum_combinations_cons.
    change (length [[]]) with 1 in *. lia.
Qed.

Lemma length_powerset s : length (powerset s) = 2 ^ length s.
Proof.
  unfold powerset, range. rewrite length_bind_sum.
  replace (length s + 1 - 0) with (S (length s)) by lia.
  by apply count_combinations.
Qed.

End Powerset.

(** ** The partition engine *)

Section Partitions.

Context {A : Type}.
Implicit Types (sequence : list A) (cuts : list nat) (a n : nat).

Lemma zip_blocks_between sequence a cuts n :
  (λ '(i, j), slice sequence i j) <$> zip (a :: cuts) (cuts ++ [n])
  = blocks_between sequence a cuts n.
Proof.
  revert a. induction cuts as [|c cuts IH]; intros a; [done|].
  simpl. f_equal. apply IH.
Qed.

Lemma partitions_blocks sequence :
  partitions sequence
  = (λ cuts, blocks_between sequence 0 cuts (length sequence))
      <$> powerset (range 1 (length sequence)).
Proof.
  unfold partitions. apply list_fmap_ext. intros _ cuts _.
  apply zip_blocks_between.
Qed.

Lemma increasing_between_lt a cuts n : increasing_between a cuts n → a < n.
Proof.
  revert a. induction cuts as [|c cuts IH]; intros a; simpl; [done|].
  intros [? ?%IH]. lia.
Qed.

Lemma sublist_seq_increasing a m cuts :
  cuts `sublist_of` seq (S a) m ↔ increasing_between a cuts (S (a + m)).
Proof.
  revert a cuts. induction m as [|m IH]; intros a cuts.
  - simpl. rewrite sublist_nil_r. split; [intros ->; simpl; lia|].
    destruct cuts as [|c cuts]; [done|]. simpl.
    intros [? Hc%increasing_between_lt]. lia.
  - change (seq (S a) (S m)) with (S a :: seq (S (S a)) m).
    rewrite sublist_cons_r, IH.
    replace (S (S a + m)) with (S (a + S m)) by lia.
    destruct cuts as [|c cuts]; simpl.
    + split; [lia|]. intros _. left. lia.
    + split.
      * intros [[? ?]|(cuts' & [= -> ->] & Hsub)]; [split; [lia|done]|].
        split; [lia|]. apply IH in Hsub.
        by replace (S (a + S m)) with (S (S a + m)) by lia.
      * intros [Hac Hinc]. destruct (decide (c = S a)) as [->|Hne].
        -- right. exists cuts. split; [done|]. apply IH.
           by replace (S (S a + m)) with (S (a + S m)) by lia.
        -- left. split; [lia|done].
Qed.

Lemma elem_of_powerset_range cuts n :
  0 < n → cuts ∈ powerset (range 1 n) ↔ increasing_between 0 cuts n.
Proof.
  intros Hn. rewrite elem_of_powerset. unfold range.
  rewrite sublist_seq_increasing. by replace (S (0 + (n - 1))) with n by lia.
Qed.

Lemma length_slice sequence i j :
  j ≤ length sequence → length (slice sequence i j) = j - i.
Proof. intros. unfold slice. rewrite length_take, length_drop. lia. Qed.

Lemma slice_app sequence i j k :
  i ≤ j → j ≤ k → slice sequence i j ++ slice sequence j k = slice sequence i k.
Proof.
  intros. unfold slice. replace (k - i) with ((j - i) + (k - j)) by lia.
  rewrite <- take_take_drop, drop_drop. do 3 f_equal. lia.
Qed.

Lemma blocks_between_nonempty sequence a cuts n :
  n ≤ length sequence → increasing_between a cuts n →
  Forall (λ block, block ≠ []) (blocks_between sequence a cuts n).
Proof.
  intros Hn. revert a. induction cuts as [|c cuts IH]; intros a; simpl.
  - intros Ha. constructor; [|done]. intros Hnil%(f_equal length).
    rewrite length_slice in Hnil by done. simpl in Hnil. lia.
  - intros [Hac Hinc]. constructor; [|by apply IH].
    apply increasing_between_lt in Hinc as Hcn.
    intros Hnil%(f_equal length).
    rewrite length_slice in Hnil by lia. simpl in Hnil. lia.
Qed.

Lemma blocks_between_join sequence a cuts n :
  increasing_between a cuts n →
  mjoin (blocks_between sequence a cuts n) = slice sequence a n.
Proof.
  revert a. induction cuts as [|c cuts IH]; intros a; simpl.
  - intros _. apply app_nil_r.
  - intros [Hac Hinc]. rewrite IH by done.
    apply increasing_between_lt in Hinc. apply slice_app; lia.
Qed.

Lemma blocks_between_inj sequence a cuts1 cuts2 n :
  n ≤ length sequence →
  increasing_between a cuts1 n → increasing_between a cuts2 n →
  blocks_between sequence a cuts1 n = blocks_between sequence a cuts2 n →
  cuts1 = cuts2.
Proof.
  intros Hn. revert a cuts2.
  induction cuts1 as [|c1 cuts1 IH]; intros a [|c2 cuts2]; simpl; [done|..].
  - intros _ _ [= _ Hnil]. by destruct cuts2.
  - intros _ _ [= _ Hnil]. by destruct cuts1.
  - intros [Ha1 Hinc1] [Ha2 Hinc2] [= Hhd Htl].
    apply increasing_between_lt in Hinc1 as ?.
    apply increasing_between_lt in Hinc2 as ?.
    apply (f_equal length) in Hhd. rewrite !length_slice in Hhd by lia.
    assert (c1 = c2) as -> by lia. f_equal. by eapply IH.
Qed.

Lemma blocks_between_complete sequence a (blocks : list (list A)) :
  blocks ≠ [] → Forall (λ block, block ≠ []) blocks →
  mjoin blocks = drop a sequence →
  ∃ cuts, increasing_between a cuts (length sequence)
          ∧ blocks_between sequence a cuts (length sequence) = blocks.
Proof.
  intros Hne Hblocks. revert a. induction Hblocks as [|b blocks Hb Hbs IH];
    [done|]. intros a Hjoin. clear Hne.
  assert (length b ≠ 0) by (by destruct b).
  assert (length (mjoin (b :: blocks)) = length sequence - a) as Hlen
    by (by rewrite Hjoin, length_drop).
  simpl in Hjoin, Hlen. rewrite length_app in Hlen.
  destruct blocks as [|b' blocks].
  - exists []. simpl in *. split; [lia|]. f_equal. unfold slice.
    rewrite take_ge by (rewrite length_drop; lia).
    by rewrite <- Hjoin, app_nil_r.
  - destruct (IH ltac:(done) (a + length b)) as (cuts & Hinc & Hcuts).
    { rewrite <- drop_drop, <- Hjoin. by rewrite drop_app_length. }
    exists (a + length b :: cuts). simpl. split; [split; [lia|done]|].
    rewrite Hcuts. f_equal. unfold slice. rewrite <- Hjoin.
    replace (a + length b - a) with (length b) by lia.
    apply take_app_length.
Qed.

End Partitions.

Lemma elem_of_partitions {A} (sequence : list A) (blocks : list (list A)) :
  sequence ≠ [] →
  blocks ∈ partitions sequence ↔ is_partition blocks sequence.
Proof.
  intros Hne. assert (0 < length sequence) as Hlen.
  { destruct sequence; [done|simpl; lia]. }
  rewrite partitions_blocks, list_elem_of_fmap. unfold is_partition. split.
  - intros (cuts & -> & Hcuts%elem_of_powerset_range); [|done]. split.
    + by apply blocks_between_nonempty.
    + rewrite blocks_between_join by done. unfold slice.
      rewrite drop_0, Nat.sub_0_r. by apply take_ge.
  - intros [Hblocks Hjoin].
    destruct (blocks_between_complete sequence 0 blocks) as (cuts & ? & ?);
      [by intros ->|done|by rewrite drop_0|].
    exists cuts. split; [done|]. by apply elem_of_powerset_range.
Qed.

(** C2. For a nonempty sequence of length n the partition engine yields
    2^(n-1) partitions, no two of them equal, and a list of blocks is among
    them exactly when its blocks are nonempty and concatenate to the
    sequence: every composition is enumerated, once. *)
Theorem C2_partition_engine {A} (sequence : list A) :
  sequence ≠ [] →
  length (partitions sequence) = 2 ^ (length sequence - 1)
  ∧ NoDup (partitions sequence)
  ∧ (∀ blocks, blocks ∈ partitions sequence ↔
       Forall (λ block, block ≠ []) blocks ∧ mjoin blocks = sequence).
Proof.
  intros Hne. assert (0 < length sequence) as Hlen.
  { destruct sequence; [done|simpl; lia]. }
  split_and!.
  - rewrite partitions_blocks, length_fmap, length_powerset. unfold range.
    by rewrite length_seq.
  - rewrite partitions_blocks. apply NoDup_fmap_2_strong.
    + intros cuts1 cuts2 H1%elem_of_powerset_range H2%elem_of_powerset_range;
        [|done..].
      by apply blocks_between_inj.
    + apply NoDup_powerset, NoDup_seq.
  - intros blocks. by apply elem_of_partitions.
Qed.

Lemma C2_partition_engine_witness :
  ["AY1"; "S"; "K"] ≠ []
  ∧ length (partitions ["AY1"; "S"; "K"]) = 2 ^ (3 - 1)
  ∧ NoDup (partitions ["AY1"; "S"; "K"])
  ∧ (∀ blocks, blocks ∈ partitions ["AY1"; "S"; "K"] ↔
       Forall (λ block, block ≠ []) blocks ∧ mjoin blocks = ["AY1"; "S"; "K"]).
Proof.
  split; [discriminate|].
  apply (C2_partition_engine ["AY1"; "S"; "K"]). discriminate.
Defined.

(** ** The inverted index *)

Lemma dict_getitem_Some d word its_pronunciations :
  dict_getitem d word = Some its_pronunciations → (word, its_pronunciations) ∈ d.
Proof.
  induction d as [|[w ps] d IH]; simpl; [done|].
  case_decide as Hw.
  - intros [= ->]. subst. apply list_elem_of_here.
  - intros ?%IH. by apply list_elem_of_further.
Qed.

Lemma dict_getitem_elem_of d word its_pronunciations :
  dict_wf d → (word, its_pronunciations) ∈ d →
  dict_getitem d word = Some its_pronunciations.
Proof.
  unfold dict_wf. induction d as [|[w ps] d IH]; simpl.
  - by intros _ ?%elem_of_nil.
  - intros [Hw Hd]%NoDup_cons [[= -> ->]|Hin]%elem_of_cons.
    + by rewrite decide_True.
    + rewrite decide_False; [by apply IH|]. intros ->. apply Hw.
      apply list_elem_of_fmap. by exists (word, its_pronunciations).
Qed.

Lemma dict_getitem_None d word :
  dict_getitem d word = None ↔ word ∉ d.*1.
Proof.
  induction d as [|[w ps] d IH]; simpl.
  - split; [intros _; apply not_elem_of_nil|done].
  - rewrite not_elem_of_cons. case_decide as Hw.
    + split; [done|]. by intros [? _].
    + rewrite IH. split; [by intros ?|by intros [_ ?]].
Qed.

Lemma elem_of_pairs d word pronunciation :
  (word, pronunciation) ∈ pairs d ↔
  ∃ its_pronunciations,
    (word, its_pronunciations) ∈ d ∧ pronunciation ∈ its_pronunciations.
Proof.
  unfold pairs. rewrite list_elem_of_bind. split.
  - intros ([w ps] & (p & [= <- <-]%list_elem_of_singleton & Hp)%list_elem_of_bind
            & Hd). by exists ps.
  - intros (ps & Hd & Hp). exists (word, ps). split; [|done].
    apply list_elem_of_bind. exists pronunciation.
    by rewrite list_elem_of_singleton.
Qed.

Lemma elem_of_bucket_of d word pronunciation :
  word ∈ bucket_of d pronunciation ↔ (word, pronunciation) ∈ pairs d.
Proof.
  unfold bucket_of. rewrite list_elem_of_fmap. split.
  - intros ([w p] & -> & [Hp Hin]%list_elem_of_filter). simpl in *. by subst.
  - intros Hin. exists (word, pronunciation). split; [done|].
    by apply list_elem_of_filter.
Qed.

Lemma invert_CMPD_pairs d :
  invert_CMPD d = foldl invert_pair ∅ (pairs d).
Proof.
  unfold invert_CMPD, pairs. generalize (∅ : gmap (list string) (list string)).
  induction d as [|[w ps] d IH]; intros inverted; [done|].
  rewrite bind_cons, foldl_app. simpl. rewrite IH. f_equal.
  clear. revert inverted. induction ps as [|p ps IH]; intros inverted; [done|].
  rewrite bind_cons. simpl. apply IH.
Qed.

Lemma lookup_invert_pronunciation word inverted pronunciation key :
  invert_pronunciation word inverted pronunciation !! key
  = if decide (pronunciation = key)
    then Some (default [] (inverted !! pronunciation) ++ [word])
    else inverted !! key.
Proof.
  unfold invert_pronunciation. case_decide as Hk.
  - subst. by rewrite lookup_alter_eq, lookup_insert_eq.
  - by rewrite lookup_alter_ne, lookup_insert_ne.
Qed.

Lemma lookup_foldl_invert_pair inverted (l : list (string * list string)) key :
  inverted !! key ≠ Some [] →
  foldl invert_pair inverted l !! key ≠ Some []
  ∧ default [] (foldl invert_pair inverted l !! key)
    = default [] (inverted !! key) ++ (filter (λ pair, pair.2 = key) l).*1.
Proof.
  revert inverted. induction l as [|[w p] l IH]; intros inverted Hinv.
  - simpl. by rewrite app_nil_r.
  - simpl. unfold invert_pair at 2 4. simpl.
    destruct (IH (invert_pronunciation w inverted p)) as [IH1 IH2].
    { rewrite lookup_invert_pronunciation. case_decide; [|done].
      intros [= Hnil]. by destruct (default [] _). }
    split; [done|]. rewrite IH2, lookup_invert_pronunciation.
    rewrite filter_cons. simpl. case_decide as Hk.
    + subst. simpl. by rewrite <- app_assoc.
    + done.
Qed.

Lemma lookup_invert_CMPD d pronunciation :
  invert_CMPD d !! pronunciation
  = if decide (bucket_of d pronunciation = []) then None
    else Some (bucket_of d pronunciation).
Proof.
  rewrite invert_CMPD_pairs.
  destruct (lookup_foldl_invert_pair ∅ (pairs d) pronunciation) as [H1 H2].
  { by rewrite lookup_empty. }
  rewrite lookup_empty in H2. simpl in H2. fold (bucket_of d pronunciation) in H2.
  destruct (foldl invert_pair ∅ (pairs d) !! pronunciation) as [bucket|];
    simpl in H2; subst.
  - rewrite decide_False; [done|]. intros Hnil. by rewrite Hnil in H1.
  - by rewrite decide_True.
Qed.

(** C5. The index built from the table holds, for every pronunciation, the
    words of the (word, pronunciation) pairs of the table with that
    pronunciation, one occurrence per pair and in visiting order, and no
    bucket at all when there is no such pair; so a word is in the bucket of a
    pronunciation exactly when the pronunciation is one of the word's
    pronunciations in the table. *)
Theorem C5_inverted_index (d : dict) :
  dict_wf d →
  (∀ pronunciation,
     invert_CMPD d !! pronunciation
     = if decide (bucket_of d pronunciation = []) then None
       else Some (bucket_of d pronunciation))
  ∧ (∀ word pronunciation,
       (∃ bucket, invert_CMPD d !! pronunciation = Some bucket ∧ word ∈ bucket)
       ↔ (∃ its_pronunciations,
            dict_getitem d word = Some its_pronunciations
            ∧ pronunciation ∈ its_pronunciations)).
Proof.
  intros Hwf. split; [apply lookup_invert_CMPD|].
  intros word pronunciation. rewrite lookup_invert_CMPD.
  transitivity ((word, pronunciation) ∈ pairs d).
  - rewrite <- elem_of_bucket_of. case_decide as Hb.
    + rewrite Hb. split; [by intros (? & [=] & _)|by intros ?%elem_of_nil].
    + split; [by intros (? & [= <-] & ?)|eauto].
  - rewrite elem_of_pairs. split.
    + intros (ps & Hd & Hp). exists ps. split; [|done].
      by apply dict_getitem_elem_of.
    + intros (ps & Hd & Hp). exists ps. split; [|done].
      by apply dict_getitem_Some.
Qed.

Lemma sample_cmudict_wf : dict_wf Sample.cmudict.
Proof. apply (bool_decide_unpack _). vm_compute. exact I. Qed.

Lemma C5_inverted_index_witness :
  dict_wf Sample.cmudict
  ∧ (∀ pronunciation,
       invert_CMPD Sample.cmudict !! pronunciation
       = if decide (bucket_of Sample.cmudict pronunciation = []) then None
         else Some (bucket_of Sample.cmudict pronunciation))
  ∧ (∀ word pronunciation,
       (∃ bucket, invert_CMPD Sample.cmudict !! pronunciation = Some bucket
                  ∧ word ∈ bucket)
       ↔ (∃ its_pronunciations,
            dict_getitem Sample.cmudict word = Some its_pronunciations
            ∧ pronunciation ∈ its_pronunciations)).
Proof.
  split; [apply (bool_decide_unpack _); vm_compute; exact I|].
  apply (C5_inverted_index Sample.cmudict).
  apply (bool_decide_unpack _). vm_compute. exact I.
Defined.

Example inverted_index_hear_here :
  invert_CMPD Sample.cmudict !! ["HH"; "IY1"; "R"] = Some ["hear"; "here"].
Proof. vm_compute. reflexivity. Qed.

Example inverted_index_miss :
  invert_CMPD Sample.cmudict !! ["HH"; "IY1"] = None.
Proof. vm_compute. reflexivity. Qed.

(** ** Running the functions of wordsmith.py *)

Section LookupEach.

Context {K V : Type} (get : K → option V) (err : K → exn).

Lemma lookup_each_Ok keys vs :
  lookup_each get err keys = Ok vs ↔ Forall2 (λ k v, get k = Some v) keys vs.
Proof.
  revert vs. induction keys as [|k keys IH]; intros vs; simpl.
  - split; [intros [= <-]; constructor|by intros ->%Forall2_nil_inv_l].
  - destruct (get k) as [v|] eqn:Hk.
    + destruct (lookup_each get err keys) as [vs'|e].
      * split.
        -- intros [= <-]. constructor; [done|]. by apply IH.
        -- intros (v' & vs'' & Hv & Hvs & ->)%Forall2_cons_inv_l.
           apply IH in Hvs. congruence.
      * split; [done|].
        intros (v' & vs'' & Hv & Hvs%IH & ->)%Forall2_cons_inv_l. done.
    + split; [done|].
      intros (v' & vs'' & Hv & _)%Forall2_cons_inv_l. congruence.
Qed.

Lemma lookup_each_Raise keys :
  (∃ k, k ∈ keys ∧ get k = None) →
  ∃ k, k ∈ keys ∧ get k = None ∧ lookup_each get err keys = Raise (err k).
Proof.
  induction keys as [|k keys IH]; simpl.
  - by intros (k & ?%elem_of_nil & _).
  - intros (k' & Hin & Hk'). destruct (get k) as [v|] eqn:Hk.
    + apply elem_of_cons in Hin as [->|Hin]; [congruence|].
      destruct IH as (k0 & Hin0 & Hk0 & ->); [by eauto|].
      exists k0. split_and!; [by apply list_elem_of_further|done..].
    + exists k. split_and!; [apply list_elem_of_here|done..].
Qed.

Lemma lookup_each_Raise_inv keys e :
  lookup_each get err keys = Raise e →
  ∃ k, k ∈ keys ∧ get k = None ∧ e = err k.
Proof.
  induction keys as [|k keys IH]; simpl; [done|].
  destruct (get k) as [v|] eqn:Hk.
  - destruct (lookup_each get err keys) as [vs'|e']; [done|].
    intros [= <-]. destruct IH as (k0 & ? & ? & ?); [done|].
    exists k0. split_and!; [by apply list_elem_of_further|done..].
  - intros [= <-]. exists k. split_and!; [apply list_elem_of_here|done..].
Qed.

End LookupEach.

Lemma get_word_pronunciations_run words g :
  get_word_pronunciations words g
  = (g, lookup_each (dict_getitem (CMPD g)) (λ word, KeyError (KeyStr word)) words).
Proof.
  unfold get_word_pronunciations.
  induction words as [|word words IH]; [done|].
  cbn [mapM lookup_each]. unfold mbind, M_bind at 1.
  unfold try_except at 1, CMPD_getitem at 1.
  destruct (dict_getitem (CMPD g) word) as [ps|]; [|done].
  unfold mbind, M_bind at 1. rewrite IH.
  by destruct (lookup_each _ _ words).
Qed.

Lemma part_to_phrases_loop g partition (word_pronunciations : list (list string)) :
  for_in partition (λ word_pronunciations word,
      try_except
        (words ← CMPD_INVERTED_getitem word;
         mret (word_pronunciations ++ [words]))
        (λ e, raise e)) word_pronunciations g
  = (g, match lookup_each (λ block, CMPD_INVERTED g !! block)
                (λ block, KeyError (KeyTuple block)) partition with
        | Ok buckets => Ok (word_pronunciations ++ buckets)
        | Raise e => Raise e
        end).
Proof.
  revert word_pronunciations.
  induction partition as [|block partition IH]; intros acc.
  - simpl. unfold mret, M_ret. by rewrite app_nil_r.
  - cbn [for_in lookup_each]. unfold mbind at 1, M_bind at 1.
    unfold try_except at 1, mbind at 1, M_bind at 1, CMPD_INVERTED_getitem at 1.
    destruct (CMPD_INVERTED g !! block) as [bucket|]; [|done].
    unfold mret, M_ret. rewrite IH.
    destruct (lookup_each _ _ partition); [|done].
    by rewrite <- app_assoc.
Qed.

Lemma part_to_phrases_run partition g :
  part_to_phrases partition g
  = (g, match lookup_each (λ block, CMPD_INVERTED g !! block)
                (λ block, KeyError (KeyTuple block)) partition with
        | Ok buckets => Ok (join " " <$> cross buckets)
        | Raise e => Raise e
        end).
Proof.
  unfold part_to_phrases, mbind, M_bind. rewrite part_to_phrases_loop.
  destruct (lookup_each _ _ partition); [|done].
  unfold mret, M_ret. by rewrite app_nil_l, product_cross.
Qed.

Lemma contribution_printed g line part :
  contribution (printed g line) part = contribution g part.
Proof. unfold contribution. by rewrite !part_to_phrases_run. Qed.

Lemma get_phrases_inner g parts (phrases : list string) :
  for_in parts (λ phrases part,
      try_except
        (new ← part_to_phrases part; mret (phrases ++ new))
        (λ _, mret phrases)) phrases g
  = (g, Ok (phrases ++ (part ← parts; contribution g part))).
Proof.
  revert phrases. induction parts as [|part parts IH]; intros phrases.
  - simpl. unfold mret, M_ret. by rewrite app_nil_r.
  - cbn [for_in]. unfold mbind at 1, M_bind at 1.
    unfold try_except at 1, mbind at 1, M_bind at 1.
    rewrite bind_cons. unfold contribution at 1.
    rewrite part_to_phrases_run. simpl.
    destruct (lookup_each _ _ part); unfold mret, M_ret; rewrite IH.
    + by rewrite <- app_assoc.
    + done.
Qed.

Lemma get_phrases_outer g pps (phrases : list string) :
  for_in pps (λ phrases pronunciation,
    for_in (partitions pronunciation) (λ phrases part,
      try_except
        (new ← part_to_phrases part; mret (phrases ++ new))
        (λ _, mret phrases)) phrases) phrases g
  = (g, Ok (phrases ++ contributions g pps)).
Proof.
  revert phrases. induction pps as [|pron pps IH]; intros phrases.
  - simpl. unfold mret, M_ret. by rewrite app_nil_r.
  - cbn [for_in]. unfold mbind at 1, M_bind at 1.
    rewrite get_phrases_inner, IH. unfold contributions.
    by rewrite bind_cons, <- app_assoc.
Qed.

Lemma get_phrases_run pps g :
  get_phrases pps g
  = (printed g (looking_over (length pps)),
     Ok (contributions g pps)).
Proof.
  unfold get_phrases, mbind, M_bind, print.
  fold (looking_over (length pps)). fold (printed g (looking_over (length pps))).
  rewrite get_phrases_outer, app_nil_l. do 2 f_equal.
  unfold contributions. apply list_bind_ext; [|done]. intros pron.
  apply list_bind_ext; [|done]. intros part. apply contribution_printed.
Qed.

(** ** The phrase reconstructor *)

(** C4. When every block of the partition has a bucket in the inverted index,
    the phrase reconstructor returns, and leaves the state as it was: its
    result is the space-joined combinations of the cross product of the
    buckets, in block order, a combination being one word per block taken
    from the bucket of the block, and it has as many phrases as the product
    of the bucket sizes. *)
Theorem C4_phrase_reconstructor (g : globals)
    (partition : list (list string)) (buckets : list (list string)) :
  Forall2 (λ block bucket, CMPD_INVERTED g !! block = Some bucket ∧ bucket ≠ [])
          partition buckets →
  part_to_phrases partition g = (g, Ok (join " " <$> cross buckets))
  ∧ (∀ combo, combo ∈ cross buckets ↔
       Forall2 (λ word bucket, word ∈ bucket) combo buckets)
  ∧ length (join " " <$> cross buckets) = pool_sizes buckets.
Proof.
  intros Hbuckets. split_and!.
  - rewrite part_to_phrases_run.
    assert (lookup_each (λ block, CMPD_INVERTED g !! block)
              (λ block, KeyError (KeyTuple block)) partition = Ok buckets)
      as ->; [|done].
    apply lookup_each_Ok. eapply Forall2_impl; [done|]. by intros ?? [? _].
  - intros combo. apply elem_of_cross.
  - by rewrite length_fmap, length_cross.
Qed.

Lemma C4_phrase_reconstructor_witness :
  let g := module_init Sample.cmudict in
  let partition := [["AY1"]; ["S"; "K"; "R"; "IY1"; "M"]] in
  let buckets := [["i"; "eye"]; ["scream"]] in
  Forall2 (λ block bucket, CMPD_INVERTED g !! block = Some bucket ∧ bucket ≠ [])
          partition buckets
  ∧ part_to_phrases partition g = (g, Ok ["i scream"; "eye scream"]).
Proof.
  intros g partition buckets.
  assert (Forall2 (λ block bucket,
                     CMPD_INVERTED g !! block = Some bucket ∧ bucket ≠ [])
                  partition buckets) as Hbuckets.
  { repeat constructor; try discriminate; vm_compute; reflexivity. }
  split; [exact Hbuckets|].
  exact (proj1 (C4_phrase_reconstructor g partition buckets Hbuckets)).
Defined.

(** ** Unknown words *)

(** C6. When some word of the tokenised phrase has no entry in the table,
    the search raises the KeyError of the first such word; the state is the
    one the search started in, so nothing was printed, and no phrase list is
    returned. *)
Theorem C6_unknown_word (lower : string → string)
    (word_tokenize : string → list string) (phrase : string) (g : globals) :
  (∃ word, word ∈ word_tokenize (lower phrase)
           ∧ dict_getitem (CMPD g) word = None) →
  ∃ word, word ∈ word_tokenize (lower phrase)
          ∧ dict_getitem (CMPD g) word = None
          ∧ get_word_pronunciations (word_tokenize (lower phrase)) g
            = (g, Raise (KeyError (KeyStr word)))
          ∧ wordsmith lower word_tokenize phrase g
            = (g, Raise (KeyError (KeyStr word))).
Proof.
  intros Hmissing.
  destruct (lookup_each_Raise (dict_getitem (CMPD g))
              (λ word, KeyError (KeyStr word)) _ Hmissing)
    as (word & Hin & Hword & Hraise).
  exists word. split_and!; [done..| |].
  - by rewrite get_word_pronunciations_run, Hraise.
  - unfold wordsmith, mbind, M_bind.
    by rewrite get_word_pronunciations_run, Hraise.
Qed.

Lemma C6_unknown_word_witness :
  let g := module_init Sample.cmudict in
  (∃ word, word ∈ Sample.word_tokenize (Sample.lower "Ice zzz cream")
           ∧ dict_getitem (CMPD g) word = None)
  ∧ ∃ word, word ∈ Sample.word_tokenize (Sample.lower "Ice zzz cream")
          ∧ dict_getitem (CMPD g) word = None
          ∧ get_word_pronunciations
              (Sample.word_tokenize (Sample.lower "Ice zzz cream")) g
            = (g, Raise (KeyError (KeyStr word)))
          ∧ wordsmith Sample.lower Sample.word_tokenize "Ice zzz cream" g
            = (g, Raise (KeyError (KeyStr word))).
Proof.
  intros g.
  assert (∃ word, word ∈ Sample.word_tokenize (Sample.lower "Ice zzz cream")
                  ∧ dict_getitem (CMPD g) word = None) as Hmissing.
  { exists "zzz". split; [|reflexivity].
    apply list_elem_of_further, list_elem_of_here. }
  split; [exact Hmissing|].
  exact (C6_unknown_word Sample.lower Sample.word_tokenize "Ice zzz cream" g
           Hmissing).
Defined.

(** ** Blocks without a word *)

Lemma part_to_phrases_miss g part block :
  block ∈ part → CMPD_INVERTED g !! block = None →
  ∃ block', block' ∈ part ∧ CMPD_INVERTED g !! block' = None
            ∧ part_to_phrases part g = (g, Raise (KeyError (KeyTuple block'))).
Proof.
  intros Hin Hblock.
  destruct (lookup_each_Raise (λ block, CMPD_INVERTED g !! block)
              (λ block, KeyError (KeyTuple block)) part)
    as (block' & Hin' & Hblock' & Hraise); [by eauto|].
  exists block'. split_and!; [done..|].
  by rewrite part_to_phrases_run, Hraise.
Qed.

(** C7. A partition with a block that has no bucket in the inverted index
    makes the phrase reconstructor raise a KeyError, which the search
    catches: the partition adds nothing, and the search returns, without an
    error, the contributions of the partitions before and after it and of the
    other pronunciations, in order. *)
Theorem C7_block_miss (g : globals) (pps1 pps2 : list (list string))
    (pronunciation : list string) (pre post : list (list (list string)))
    (part : list (list string)) (block : list string) :
  partitions pronunciation = pre ++ part :: post →
  block ∈ part →
  CMPD_INVERTED g !! block = None →
  (∃ e, part_to_phrases part g = (g, Raise e))
  ∧ contribution g part = []
  ∧ get_phrases (pps1 ++ pronunciation :: pps2) g
    = (printed g (looking_over (length (pps1 ++ pronunciation :: pps2))),
       Ok (contributions g pps1
           ++ (part' ← pre; contribution g part')
           ++ (part' ← post; contribution g part')
           ++ contributions g pps2)).
Proof.
  intros Hparts Hin Hblock.
  destruct (part_to_phrases_miss g part block) as (block' & _ & _ & Hraise);
    [done..|].
  assert (contribution g part = []) as Hnone.
  { unfold contribution. by rewrite Hraise. }
  split_and!; [by eauto|done|].
  rewrite get_phrases_run. do 2 f_equal. unfold contributions.
  rewrite bind_app, bind_cons, Hparts, bind_app, bind_cons, Hnone.
  by rewrite app_nil_l, <- app_assoc.
Qed.

Lemma C7_block_miss_witness :
  let g := module_init Sample.cmudict in
  (partitions ["AY1"; "S"] = [[["AY1"; "S"]]] ++ [["AY1"]; ["S"]] :: []
   ∧ ["S"] ∈ [["AY1"]; ["S"]]
   ∧ CMPD_INVERTED g !! ["S"] = None)
  ∧ (∃ e, part_to_phrases [["AY1"]; ["S"]] g = (g, Raise e))
  ∧ contribution g [["AY1"]; ["S"]] = []
  ∧ get_phrases ([] ++ ["AY1"; "S"] :: [["HH"; "IY1"; "R"]]) g
    = (printed g (looking_over 2), Ok ["ice"; "hear"; "here"]).
Proof.
  intros g.
  assert (partitions ["AY1"; "S"] = [[["AY1"; "S"]]] ++ [["AY1"]; ["S"]] :: [])
    as Hparts by reflexivity.
  assert (["S"] ∈ [["AY1"]; ["S"]]) as Hin
    by apply list_elem_of_further, list_elem_of_here.
  assert (CMPD_INVERTED g !! ["S"] = None) as Hblock
    by (vm_compute; reflexivity).
  split; [by split_and!|].
  destruct (C7_block_miss g [] [["HH"; "IY1"; "R"]] ["AY1"; "S"]
              [[["AY1"; "S"]]] [] [["AY1"]; ["S"]] ["S"] Hparts Hin Hblock)
    as (Hraise & Hnone & Hrun).
  split_and!; [exact Hraise|exact Hnone|].
  rewrite Hrun. vm_compute. reflexivity.
Defined.

(** C8, as the code has it. In every state whose index is the one built from
    its table, whatever was printed before, the inverted index has no bucket
    for a phoneme sequence that is no pronunciation of any word of the table:
    the subscription raises the KeyError of the sequence and leaves the state
    unchanged, and so does the phrase reconstructor on every partition whose
    first bucketless block it is. The loop over the partitions catches the
    exception: [get_phrases] returns, with the contributions of the partitions
    before and after a partition that has the sequence as a block and of the
    other pronunciations, and nothing for that partition; when every partition
    of every pronunciation has the sequence as a block it returns the empty
    list. *)
Theorem C8_index_miss_raises (g : globals) (sequence : list string) :
  index_built g →
  (∀ word its_pronunciations,
     (word, its_pronunciations) ∈ CMPD g → sequence ∉ its_pronunciations) →
  CMPD_INVERTED g !! sequence = None
  ∧ CMPD_INVERTED_getitem sequence g = (g, Raise (KeyError (KeyTuple sequence)))
  ∧ (∀ pre post,
       Forall (λ block, is_Some (CMPD_INVERTED g !! block)) pre →
       part_to_phrases (pre ++ sequence :: post) g
       = (g, Raise (KeyError (KeyTuple sequence))))
  ∧ (∀ part, sequence ∈ part → contribution g part = [])
  ∧ (∀ pps1 pronunciation pps2 before part after,
       partitions pronunciation = before ++ part :: after →
       sequence ∈ part →
       get_phrases (pps1 ++ pronunciation :: pps2) g
       = (printed g (looking_over (length (pps1 ++ pronunciation :: pps2))),
          Ok (contributions g pps1
              ++ (part' ← before; contribution g part')
              ++ (part' ← after; contribution g part')
              ++ contributions g pps2)))
  ∧ (∀ phrase_pronunciations,
       (∀ pronunciation part,
          pronunciation ∈ phrase_pronunciations →
          part ∈ partitions pronunciation → sequence ∈ part) →
       get_phrases phrase_pronunciations g
       = (printed g (looking_over (length phrase_pronunciations)), Ok [])).
Proof.
  intros Hg Hnone.
  assert (CMPD_INVERTED g !! sequence = None) as Hlookup.
  { rewrite Hg, lookup_invert_CMPD. rewrite decide_True; [done|].
    apply elem_of_nil_inv. intros word Hword%elem_of_bucket_of.
    apply elem_of_pairs in Hword as (ps & Hd & Hp). by eapply Hnone. }
  assert (∀ part, sequence ∈ part → contribution g part = []) as Hmiss.
  { intros part Hin.
    destruct (part_to_phrases_miss g part sequence) as (b & _ & _ & Hraise);
      [done..|].
    unfold contribution. by rewrite Hraise. }
  split_and!; [done| | |done| |].
  - unfold CMPD_INVERTED_getitem. by rewrite Hlookup.
  - intros pre post Hpre. rewrite part_to_phrases_run.
    assert (lookup_each (λ block, CMPD_INVERTED g !! block)
              (λ block, KeyError (KeyTuple block)) (pre ++ sequence :: post)
            = Raise (KeyError (KeyTuple sequence))) as ->; [|done].
    induction Hpre as [|block pre [bucket Hblock] _ IH]; simpl.
    + by rewrite Hlookup.
    + simpl in Hblock. by rewrite Hblock, IH.
  - intros pps1 pron pps2 before part after Hparts Hin.
    rewrite get_phrases_run. do 2 f_equal. unfold contributions.
    rewrite bind_app, bind_cons, Hparts, bind_app, bind_cons, (Hmiss part Hin).
    by rewrite app_nil_l, <- app_assoc.
  - intros pps Hall. rewrite get_phrases_run. do 2 f_equal.
    apply elem_of_nil_inv. intros phrase. unfold contributions.
    intros (pron & (part & Hphrase & Hpart)%list_elem_of_bind & Hpron)
      %list_elem_of_bind.
    rewrite (Hmiss part) in Hphrase by eauto. by apply elem_of_nil in Hphrase.
Qed.

Lemma sample_no_pronunciation_S :
  ∀ word its_pronunciations,
    (word, its_pronunciations) ∈ Sample.cmudict → ["S"] ∉ its_pronunciations.
Proof.
  assert (Forall (λ entry, ["S"] ∉ entry.2) Sample.cmudict) as Hall.
  { apply (bool_decide_unpack _). vm_compute. exact I. }
  intros word ps Hin. by apply (proj1 (Forall_forall _ _) Hall (word, ps)).
Qed.

Lemma sample_no_pronunciation :
  ∀ word its_pronunciations,
    (word, its_pronunciations) ∈ Sample.cmudict →
    ["HH"; "IY1"] ∉ its_pronunciations.
Proof.
  assert (Forall (λ entry, ["HH"; "IY1"] ∉ entry.2) Sample.cmudict) as Hall.
  { apply (bool_decide_unpack _). vm_compute. exact I. }
  intros word ps Hin. by apply (proj1 (Forall_forall _ _) Hall (word, ps)).
Qed.

Lemma C8_index_miss_raises_witness :
  let g := printed (module_init Sample.cmudict) "an earlier line" in
  (index_built g
   ∧ ∀ word its_pronunciations,
       (word, its_pronunciations) ∈ CMPD g → ["S"] ∉ its_pronunciations)
  ∧ CMPD_INVERTED g !! ["S"] = None
  ∧ CMPD_INVERTED_getitem ["S"] g = (g, Raise (KeyError (KeyTuple ["S"])))
  ∧ part_to_phrases [["AY1"]; ["S"]] g = (g, Raise (KeyError (KeyTuple ["S"])))
  ∧ get_phrases [["AY1"; "S"]] g = (printed g (looking_over 1), Ok ["ice"])
  ∧ get_phrases [["S"]] g = (printed g (looking_over 1), Ok []).
Proof.
  intros g.
  assert (index_built g) as Hg by reflexivity.
  destruct (C8_index_miss_raises g ["S"] Hg sample_no_pronunciation_S)
    as (Hlookup & Hget & Hpart & _ & Hcatch & Hnone).
  split; [split; [exact Hg|exact sample_no_pronunciation_S]|].
  split_and!.
  - exact Hlookup.
  - exact Hget.
  - apply (Hpart [["AY1"]] []). repeat constructor. by eexists.
  - assert (["S"] ∈ [["AY1"]; ["S"]]) as Hin
      by apply list_elem_of_further, list_elem_of_here.
    etrans;
      [exact (Hcatch [] ["AY1"; "S"] [] [[["AY1"; "S"]]] [["AY1"]; ["S"]] []
                eq_refl Hin)|].
    vm_compute. reflexivity.
  - apply Hnone. intros pron part ->%list_elem_of_singleton.
    change (partitions ["S"]) with [[["S"]]].
    intros ->%list_elem_of_singleton. apply list_elem_of_here.
Defined.

(** C8, as the claim words it, fails: for a sequence that is no pronunciation
    of any word of the sample table the subscription of the inverted index
    does not return the empty list, it raises. *)
Lemma C8_index_miss_counterexample :
  (∀ word its_pronunciations,
     (word, its_pronunciations) ∈ Sample.cmudict →
     ["HH"; "IY1"] ∉ its_pronunciations)
  ∧ (CMPD_INVERTED_getitem ["HH"; "IY1"] (module_init Sample.cmudict)).2
    = Raise (KeyError (KeyTuple ["HH"; "IY1"]))
  ∧ (CMPD_INVERTED_getitem ["HH"; "IY1"] (module_init Sample.cmudict)).2
    ≠ Ok [].
Proof.
  split; [exact sample_no_pronunciation|].
  split; [vm_compute; reflexivity|]. vm_compute. discriminate.
Qed.

(** ** The search *)

Lemma contribution_ext g1 g2 part :
  CMPD_INVERTED g1 = CMPD_INVERTED g2 → contribution g1 part = contribution g2 part.
Proof. intros Heq. unfold contribution. by rewrite !part_to_phrases_run, Heq. Qed.

Lemma contributions_ext g1 g2 pps :
  CMPD_INVERTED g1 = CMPD_INVERTED g2 → contributions g1 pps = contributions g2 pps.
Proof.
  intros Heq. unfold contributions. apply list_bind_ext; [|done]. intros pron.
  apply list_bind_ext; [|done]. intros part. by apply contribution_ext.
Qed.

Lemma wordsmith_run lower word_tokenize phrase g :
  wordsmith lower word_tokenize phrase g
  = match lookup_each (dict_getitem (CMPD g)) (λ word, KeyError (KeyStr word))
            (word_tokenize (lower phrase)) with
    | Ok word_pronunciations =>
        let pps := get_phrase_pronunciations word_pronunciations in
        (printed g (looking_over (length pps)), Ok (contributions g pps))
    | Raise e => (g, Raise e)
    end.
Proof.
  unfold wordsmith, mbind, M_bind. rewrite get_word_pronunciations_run.
  destruct (lookup_each _ _ _) as [wps|e]; [|done].
  by rewrite get_phrases_run.
Qed.

Lemma lookup_each_known (d : dict) (words : list string) :
  Forall (λ word, is_Some (dict_getitem d word)) words →
  ∃ word_pronunciations,
    lookup_each (dict_getitem d) (λ word, KeyError (KeyStr word)) words
    = Ok word_pronunciations.
Proof.
  induction 1 as [|word words [ps Hword] _ [wps IH]]; simpl.
  - by eexists.
  - rewrite Hword, IH. by eexists.
Qed.

(** C9. Two runs of the search for the same phrase, from states with the
    same table and the same inverted index and all words of the phrase in the
    table, return the same list of phrases and print the same line; a run
    leaves the table and the index as they were, so this holds for a second
    run that starts where the first one ended. *)
Theorem C9_idempotent (lower : string → string)
    (word_tokenize : string → list string) (phrase : string) (g1 g2 : globals) :
  CMPD g1 = CMPD g2 →
  CMPD_INVERTED g1 = CMPD_INVERTED g2 →
  Forall (λ word, is_Some (dict_getitem (CMPD g1) word))
         (word_tokenize (lower phrase)) →
  ∃ phrases line,
    wordsmith lower word_tokenize phrase g1 = (printed g1 line, Ok phrases)
    ∧ wordsmith lower word_tokenize phrase g2 = (printed g2 line, Ok phrases)
    ∧ wordsmith lower word_tokenize phrase (printed g1 line)
      = (printed (printed g1 line) line, Ok phrases).
Proof.
  intros Hd Hinv Hwords.
  destruct (lookup_each_known _ _ Hwords) as [wps Hwps].
  exists (contributions g1 (get_phrase_pronunciations wps)),
         (looking_over (length (get_phrase_pronunciations wps))).
  rewrite !wordsmith_run. simpl. rewrite <- Hd, Hwps. simpl.
  split_and!; [done| |by rewrite (contributions_ext (printed g1 _) g1)].
  by rewrite (contributions_ext g2 g1).
Qed.

Lemma C9_idempotent_witness :
  let g1 := module_init Sample.cmudict in
  let g2 := printed g1 "an earlier line" in
  (CMPD g1 = CMPD g2
   ∧ CMPD_INVERTED g1 = CMPD_INVERTED g2
   ∧ Forall (λ word, is_Some (dict_getitem (CMPD g1) word))
            (Sample.word_tokenize (Sample.lower "Ice cream")))
  ∧ ∃ phrases line,
      wordsmith Sample.lower Sample.word_tokenize "Ice cream" g1
      = (printed g1 line, Ok phrases)
      ∧ wordsmith Sample.lower Sample.word_tokenize "Ice cream" g2
        = (printed g2 line, Ok phrases)
      ∧ wordsmith Sample.lower Sample.word_tokenize "Ice cream" (printed g1 line)
        = (printed (printed g1 line) line, Ok phrases).
Proof.
  intros g1 g2.
  assert (Forall (λ word, is_Some (dict_getitem (CMPD g1) word))
                 (Sample.word_tokenize (Sample.lower "Ice cream"))) as Hwords.
  { repeat constructor; by eexists. }
  split; [by split_and!|].
  exact (C9_idempotent Sample.lower Sample.word_tokenize "Ice cream" g1 g2
           eq_refl eq_refl Hwords).
Defined.

Lemma choose_pronunciations (d : dict) (words : list string) :
  Forall (λ word, ∃ its_pronunciations pronunciation,
            dict_getitem d word = Some its_pronunciations
            ∧ pronunciation ∈ its_pronunciations ∧ pronunciation ≠ []) words →
  ∃ (word_pronunciations : list (list (list string)))
    (combo : list (list string)),
    Forall2 (λ word its_pronunciations,
               dict_getitem d word = Some its_pronunciations)
            words word_pronunciations
    ∧ Forall2 (λ pronunciation its_pronunciations,
                 pronunciation ∈ its_pronunciations) combo word_pronunciations
    ∧ Forall (λ pronunciation, pronunciation ≠ []) combo
    ∧ Forall2 (λ pronunciation word, word ∈ bucket_of d pronunciation)
              combo words.
Proof.
  induction 1 as [|word words (ps & p & Hword & Hp & Hne) _
                    (wps & combo & H1 & H2 & H3 & H4)].
  - exists [], []. by split_and!; constructor.
  - exists (ps :: wps), (p :: combo). split_and!; constructor; try done.
    apply elem_of_bucket_of, elem_of_pairs. exists ps.
    split; [by apply dict_getitem_Some|done].
Qed.

Lemma lookup_each_buckets g (combo : list (list string)) (words : list string) :
  index_built g →
  Forall2 (λ pronunciation word, word ∈ bucket_of (CMPD g) pronunciation)
          combo words →
  lookup_each (λ block, CMPD_INVERTED g !! block)
    (λ block, KeyError (KeyTuple block)) combo
  = Ok (bucket_of (CMPD g) <$> combo).
Proof.
  intros Hg Hcombo. apply lookup_each_Ok. rewrite Hg.
  induction Hcombo as [|p word combo words Hword _ IH]; [constructor|].
  rewrite fmap_cons. constructor; [|done].
  rewrite lookup_invert_CMPD, decide_False; [done|].
  intros Hnil. rewrite Hnil in Hword. by apply elem_of_nil in Hword.
Qed.

(** C1, for phrases of at least one word. When the index is the one built
    from the table, the phrase has at least one token and every token has a
    table entry with a nonempty pronunciation, the search returns a list that
    contains the tokens joined by single spaces: the word lookups succeed,
    one nonempty pronunciation per word is a combination whose flattening is
    among the phrase pronunciations, the list of these per-word pronunciations
    is one of the partitions of the flattening, and its contribution contains
    the joined tokens. *)
Theorem C1_original_phrase (lower : string → string)
    (word_tokenize : string → list string) (phrase : string) (g : globals) :
  let words := word_tokenize (lower phrase) in
  index_built g →
  words ≠ [] →
  Forall (λ word, ∃ its_pronunciations pronunciation,
            dict_getitem (CMPD g) word = Some its_pronunciations
            ∧ pronunciation ∈ its_pronunciations ∧ pronunciation ≠ []) words →
  ∃ word_pronunciations combo g' phrases,
    get_word_pronunciations words g = (g, Ok word_pronunciations)
    ∧ Forall2 (λ pronunciation its_pronunciations,
                 pronunciation ∈ its_pronunciations) combo word_pronunciations
    ∧ mjoin combo ∈ get_phrase_pronunciations word_pronunciations
    ∧ combo ∈ partitions (mjoin combo)
    ∧ join " " words ∈ contribution g combo
    ∧ wordsmith lower word_tokenize phrase g = (g', Ok phrases)
    ∧ join " " words ∈ phrases.
Proof.
  intros words Hg Hne Hwords.
  destruct (choose_pronunciations _ _ Hwords)
    as (wps & combo & Hlookup & Hcombo & Hblocks & Hbuckets).
  apply lookup_each_Ok with (err := λ word, KeyError (KeyStr word)) in Hlookup.
  assert (mjoin combo ∈ get_phrase_pronunciations wps) as Hpron.
  { rewrite get_phrase_pronunciations_cross. apply list_elem_of_fmap_2.
    by apply elem_of_cross. }
  assert (combo ∈ partitions (mjoin combo)) as Hpart.
  { apply elem_of_partitions; [|done].
    destruct Hbuckets as [|p word combo' words' _ _]; [done|].
    apply Forall_cons in Hblocks as [Hp _]. simpl. by destruct p. }
  assert (join " " words ∈ contribution g combo) as Hcontrib.
  { unfold contribution. rewrite part_to_phrases_run. simpl.
    rewrite (lookup_each_buckets g combo words) by done.
    apply list_elem_of_fmap_2, elem_of_cross.
    clear -Hbuckets. induction Hbuckets; constructor; done. }
  exists wps, combo. eexists _, _. split_and!; [|done..| |].
  - by rewrite get_word_pronunciations_run, Hlookup.
  - rewrite wordsmith_run. fold words. rewrite Hlookup. done.
  - simpl. unfold contributions. apply list_elem_of_bind.
    exists (mjoin combo). split; [|done].
    apply list_elem_of_bind. by exists combo.
Qed.

Lemma C1_original_phrase_witness :
  let g := module_init Sample.cmudict in
  let words := Sample.word_tokenize (Sample.lower "Ice cream") in
  (index_built g
   ∧ words ≠ []
   ∧ Forall (λ word, ∃ its_pronunciations pronunciation,
               dict_getitem (CMPD g) word = Some its_pronunciations
               ∧ pronunciation ∈ its_pronunciations ∧ pronunciation ≠ [])
            words)
  ∧ ∃ g' phrases,
      wordsmith Sample.lower Sample.word_tokenize "Ice cream" g
      = (g', Ok phrases)
      ∧ "ice cream" ∈ phrases.
Proof.
  intros g words.
  assert (index_built g) as Hg by reflexivity.
  assert (words ≠ []) as Hne by discriminate.
  assert (Forall (λ word, ∃ its_pronunciations pronunciation,
                    dict_getitem (CMPD g) word = Some its_pronunciations
                    ∧ pronunciation ∈ its_pronunciations ∧ pronunciation ≠ [])
                 words) as Hwords.
  { repeat constructor.
    - exists [["AY1"; "S"]], ["AY1"; "S"].
      split_and!; [reflexivity|apply list_elem_of_here|discriminate].
    - exists [["K"; "R"; "IY1"; "M"]], ["K"; "R"; "IY1"; "M"].
      split_and!; [reflexivity|apply list_elem_of_here|discriminate]. }
  split; [by split_and!|].
  destruct (C1_original_phrase Sample.lower Sample.word_tokenize "Ice cream" g
              Hg Hne Hwords)
    as (wps & combo & g' & phrases & _ & _ & _ & _ & _ & Hrun & Hin).
  exists g', phrases. split; [exact Hrun|exact Hin].
Defined.

(** C1, as the claim words it, fails for the phrase without tokens: every
    one of its (no) words has an entry in the sample table, the search returns
    the empty list, and the empty string, the join of no tokens, is not in
    it. *)
Lemma C1_original_phrase_counterexample :
  let g := module_init Sample.cmudict in
  let words := Sample.word_tokenize (Sample.lower "") in
  Forall (λ word, is_Some (dict_getitem (CMPD g) word)) words
  ∧ (wordsmith Sample.lower Sample.word_tokenize "" g).2 = Ok []
  ∧ ¬ ∃ phrases,
        (wordsmith Sample.lower Sample.word_tokenize "" g).2 = Ok phrases
        ∧ join " " words ∈ phrases.
Proof.
  intros g words. split_and!.
  - constructor.
  - vm_compute. reflexivity.
  - intros (phrases & Hrun & Hin). vm_compute in Hrun.
    injection Hrun as <-. by apply elem_of_nil in Hin.
Qed.

(** The hypothesis on the pronunciations is needed as well: a word whose only
    pronunciation is empty leaves no block for itself, and a word with an
    entry but no pronunciation leaves no phrase pronunciation at all. *)
Example original_phrase_empty_pronunciation :
  (wordsmith Sample.lower Sample.word_tokenize "a x"
     (module_init [("a", [["AH0"]]); ("x", [[]])])).2 = Ok ["a"].
Proof. vm_compute. reflexivity. Qed.

Example original_phrase_no_pronunciation :
  (wordsmith Sample.lower Sample.word_tokenize "a x"
     (module_init [("a", [["AH0"]]); ("x", [])])).2 = Ok [].
Proof. vm_compute. reflexivity. Qed.

(** ** The empty word list *)

(** C10. When the index is the one built from the table, no word of the
    table has an empty pronunciation and the phrase has no tokens, the word
    lookups return the empty list, the phrase expander returns the empty
    sequence as the only phrase pronunciation, the partition engine returns
    for it one partition, whose single block is empty, that block has no
    bucket in the index, and the search prints its line and returns the
    empty phrase list. *)
Theorem C10_empty_word_list (lower : string → string)
    (word_tokenize : string → list string) (phrase : string) (g : globals) :
  index_built g →
  (∀ word its_pronunciations,
     (word, its_pronunciations) ∈ CMPD g → [] ∉ its_pronunciations) →
  word_tokenize (lower phrase) = [] →
  get_word_pronunciations [] g = (g, Ok [])
  ∧ get_phrase_pronunciations [] = [[]]
  ∧ partitions (@nil string) = [[[]]]
  ∧ CMPD_INVERTED g !! [] = None
  ∧ part_to_phrases [[]] g = (g, Raise (KeyError (KeyTuple [])))
  ∧ wordsmith lower word_tokenize phrase g
    = (printed g (looking_over 1), Ok []).
Proof.
  intros Hg Hnonempty Htokens.
  assert (CMPD_INVERTED g !! [] = None) as Hlookup.
  { rewrite Hg, lookup_invert_CMPD, decide_True; [done|].
    apply elem_of_nil_inv. intros word Hword%elem_of_bucket_of.
    apply elem_of_pairs in Hword as (ps & Hd & Hp). by eapply Hnonempty. }
  assert (part_to_phrases [[]] g = (g, Raise (KeyError (KeyTuple []))))
    as Hraise.
  { rewrite part_to_phrases_run. simpl. by rewrite Hlookup. }
  split_and!; [done..|].
  rewrite wordsmith_run, Htokens. cbn [lookup_each]. cbv zeta.
  change (get_phrase_pronunciations []) with [[] : list string].
  do 2 f_equal.
  unfold contributions. rewrite bind_singleton.
  change (partitions []) with [[[] : list string]].
  rewrite bind_singleton. unfold contribution. by rewrite Hraise.
Qed.

Lemma sample_nonempty_pronunciations :
  ∀ word its_pronunciations,
    (word, its_pronunciations) ∈ Sample.cmudict → [] ∉ its_pronunciations.
Proof.
  assert (Forall (λ entry, [] ∉ entry.2) Sample.cmudict) as Hall.
  { apply (bool_decide_unpack _). vm_compute. exact I. }
  intros word ps Hin. by apply (proj1 (Forall_forall _ _) Hall (word, ps)).
Qed.

Lemma C10_empty_word_list_witness :
  let g := module_init Sample.cmudict in
  (index_built g
   ∧ (∀ word its_pronunciations,
        (word, its_pronunciations) ∈ CMPD g → [] ∉ its_pronunciations)
   ∧ Sample.word_tokenize (Sample.lower "") = [])
  ∧ wordsmith Sample.lower Sample.word_tokenize "" g
    = (printed g (looking_over 1), Ok []).
Proof.
  intros g.
  assert (index_built g) as Hg by reflexivity.
  assert (Sample.word_tokenize (Sample.lower "") = []) as Htokens
    by reflexivity.
  split; [split_and!; [exact Hg|exact sample_nonempty_pronunciations|
                       exact Htokens]|].
  destruct (C10_empty_word_list Sample.lower Sample.word_tokenize "" g
              Hg sample_nonempty_pronunciations Htokens)
    as (_ & _ & _ & _ & _ & Hrun).
  exact Hrun.
Defined.

(** With a word whose pronunciation is empty in the table, the empty block
    has a bucket and the search for no words returns that word. *)
Example empty_word_list_empty_pronunciation :
  (wordsmith Sample.lower Sample.word_tokenize ""
     (module_init [("a", [["AH0"]]); ("x", [[]])])).2 = Ok ["x"].
Proof. vm_compute. reflexivity. Qed.

(** * Further properties of the code *)

(** ** Word lookups *)

(** X1. The word lookups return a list exactly when it holds, word by word
    and in order, the table's pronunciation lists of the words; the state is
    then the one they started in. *)
Theorem get_word_pronunciations_Ok (words : list string) (g g' : globals)
    (word_pronunciations : list (list (list string))) :
  get_word_pronunciations words g = (g', Ok word_pronunciations)
  ↔ g' = g
    ∧ Forall2 (λ word its_pronunciations,
                 dict_getitem (CMPD g) word = Some its_pronunciations)
              words word_pronunciations.
Proof.
  rewrite get_word_pronunciations_run, <- lookup_each_Ok. split.
  - by intros [= -> ->].
  - by intros [-> ->].
Qed.

Lemma lookup_each_first {K V} (get : K → option V) (err : K → exn)
    (pre post : list K) (k : K) :
  Forall (λ k', is_Some (get k')) pre → get k = None →
  lookup_each get err (pre ++ k :: post) = Raise (err k).
Proof.
  intros Hpre Hk. induction Hpre as [|k' pre [v Hk'] _ IH]; simpl.
  - by rewrite Hk.
  - by rewrite Hk', IH.
Qed.

Lemma lookup_each_Raise_first {K V} (get : K → option V) (err : K → exn)
    (keys : list K) (e : exn) :
  lookup_each get err keys = Raise e →
  ∃ pre k post, keys = pre ++ k :: post
                ∧ Forall (λ k', is_Some (get k')) pre
                ∧ get k = None ∧ e = err k.
Proof.
  induction keys as [|k keys IH]; simpl; [done|].
  destruct (get k) as [v|] eqn:Hk.
  - destruct (lookup_each get err keys) as [vs|e']; [done|].
    intros [= <-]. destruct IH as (pre & k0 & post & -> & Hpre & Hk0 & ->);
      [done|].
    exists (k :: pre), k0, post. split_and!; [done| |done..].
    constructor; [by eexists|done].
  - intros [= <-]. exists [], k, keys. by split_and!.
Qed.

(** X2. The word lookups raise exactly when some word has no entry in the
    table: the exception is the KeyError of the first such word, the words
    before it being known, and the state is the one they started in. *)
Theorem get_word_pronunciations_Raise (words : list string) (g g' : globals)
    (e : exn) :
  get_word_pronunciations words g = (g', Raise e)
  ↔ g' = g
    ∧ ∃ pre word post,
        words = pre ++ word :: post
        ∧ Forall (λ word', is_Some (dict_getitem (CMPD g) word')) pre
        ∧ dict_getitem (CMPD g) word = None
        ∧ e = KeyError (KeyStr word).
Proof.
  rewrite get_word_pronunciations_run. split.
  - intros [= -> Hraise]. split; [done|].
    by apply lookup_each_Raise_first in Hraise.
  - intros (-> & pre & word & post & -> & Hpre & Hword & ->).
    by rewrite lookup_each_first.
Qed.

(** ** The inverted index, continued *)

(** X3. The keys of the built index are exactly the pronunciations listed in
    the table, and none of its buckets is empty. *)
Theorem invert_CMPD_keys (d : dict) (pronunciation : list string) :
  (is_Some (invert_CMPD d !! pronunciation)
   ↔ ∃ word, pronounced d word pronunciation)
  ∧ invert_CMPD d !! pronunciation ≠ Some [].
Proof.
  rewrite lookup_invert_CMPD. case_decide as Hb; split.
  - split; [by intros [? [=]]|].
    intros (word & Hword%elem_of_pairs%elem_of_bucket_of).
    rewrite Hb in Hword. by apply elem_of_nil in Hword.
  - done.
  - split; [|by eauto]. intros _.
    destruct (bucket_of d pronunciation) as [|word bucket] eqn:Hbucket; [done|].
    exists word. apply elem_of_pairs, elem_of_bucket_of.
    rewrite Hbucket. apply list_elem_of_here.
  - by intros [= ?].
Qed.

Lemma pairs_app (d1 d2 : dict) : pairs (d1 ++ d2) = pairs d1 ++ pairs d2.
Proof. unfold pairs. apply bind_app. Qed.

Lemma bucket_of_app (d1 d2 : dict) (pronunciation : list string) :
  bucket_of (d1 ++ d2) pronunciation
  = bucket_of d1 pronunciation ++ bucket_of d2 pronunciation.
Proof. unfold bucket_of. by rewrite pairs_app, filter_app, fmap_app. Qed.

Lemma default_lookup_invert_CMPD (d : dict) (pronunciation : list string) :
  default [] (invert_CMPD d !! pronunciation) = bucket_of d pronunciation.
Proof.
  rewrite lookup_invert_CMPD. case_decide as Hb; [by rewrite Hb|done].
Qed.

(** X4. The index of two tables set one after the other has, for every
    pronunciation, the words of the first table's bucket followed by those of
    the second's (a missing bucket counting as empty): the words of a bucket
    come in table order. *)
Theorem invert_CMPD_app (d1 d2 : dict) (pronunciation : list string) :
  default [] (invert_CMPD (d1 ++ d2) !! pronunciation)
  = default [] (invert_CMPD d1 !! pronunciation)
    ++ default [] (invert_CMPD d2 !! pronunciation).
Proof. rewrite !default_lookup_invert_CMPD. apply bucket_of_app. Qed.

(** ** The phrase expander, continued *)

Lemma cross_app {A} (pools1 pools2 : list (list A)) :
  cross (pools1 ++ pools2)
  = c1 ← cross pools1; c2 ← cross pools2; [c1 ++ c2].
Proof.
  induction pools1 as [|pool pools1 IH].
  - change (cross []) with [@nil A]. rewrite bind_singleton, app_nil_l.
    symmetry. apply list_bind_singleton.
  - change (cross ((pool :: pools1) ++ pools2))
      with (y ← pool; cons y <$> cross (pools1 ++ pools2)).
    change (cross (pool :: pools1)) with (y ← pool; cons y <$> cross pools1).
    rewrite IH, list_bind_assoc. apply list_bind_ext; [|done]. intros y.
    rewrite list_fmap_bind. clear IH.
    induction (cross pools1) as [|c1 l IHl]; [done|].
    rewrite !bind_cons, fmap_app, IHl. f_equal.
    unfold compose. clear. induction (cross pools2) as [|c2 l IHl]; [done|].
    by rewrite !bind_cons, fmap_app, IHl.
Qed.

(** X5. A word without any pronunciation leaves the phrase without any
    pronunciation, whatever the other words have. *)
Theorem get_phrase_pronunciations_no_pronunciation
    (word_pronunciations : list (list (list string))) :
  [] ∈ word_pronunciations →
  get_phrase_pronunciations word_pronunciations = [].
Proof.
  intros Hnil. rewrite get_phrase_pronunciations_cross.
  assert (cross word_pronunciations = []) as ->; [|done].
  apply elem_of_nil_inv. intros combo Hcombo%elem_of_cross.
  induction Hcombo as [|p ps combo wps Hp _ IH].
  - by apply elem_of_nil in Hnil.
  - apply elem_of_cons in Hnil as [<-|Hnil]; [|by apply IH].
    by apply elem_of_nil in Hp.
Qed.

Lemma get_phrase_pronunciations_no_pronunciation_witness :
  [] ∈ [[["AY1"; "S"]]; []; [["K"; "R"; "IY1"; "M"]]]
  ∧ get_phrase_pronunciations [[["AY1"; "S"]]; []; [["K"; "R"; "IY1"; "M"]]] = [].
Proof.
  assert ([] ∈ [[["AY1"; "S"]]; []; [["K"; "R"; "IY1"; "M"]]]) as Hnil
    by apply list_elem_of_further, list_elem_of_here.
  split; [exact Hnil|].
  exact (get_phrase_pronunciations_no_pronunciation _ Hnil).
Defined.

(** X6. The pronunciations of two phrases set one after the other are the
    pronunciations of the first, each followed by each pronunciation of the
    second, in that order. *)
Theorem get_phrase_pronunciations_app
    (wps1 wps2 : list (list (list string))) :
  get_phrase_pronunciations (wps1 ++ wps2)
  = p1 ← get_phrase_pronunciations wps1;
    p2 ← get_phrase_pronunciations wps2; [p1 ++ p2].
Proof.
  rewrite !get_phrase_pronunciations_cross, cross_app.
  rewrite list_fmap_bind.
  induction (cross wps1) as [|c1 l IHl]; [done|].
  rewrite !bind_cons, fmap_app, IHl. f_equal.
  unfold compose. rewrite list_fmap_bind.
  clear. induction (cross wps2) as [|c2 l IHl]; [done|].
  rewrite !bind_cons, fmap_app, IHl. f_equal.
  unfold compose. simpl. by rewrite join_app.
Qed.

Example phrase_expander_app :
  get_phrase_pronunciations ([[["A"]; ["B"]]] ++ [[["C"]; ["D"]]])
  = [["A"; "C"]; ["A"; "D"]; ["B"; "C"]; ["B"; "D"]].
Proof. reflexivity. Qed.

(** ** The phrase reconstructor, continued *)

(** X7. The phrase reconstructor raises exactly when some block of the
    partition has no bucket in the index: the exception is the KeyError of
    the first such block, the blocks before it having buckets, and the state
    is the one it started in. *)
Theorem part_to_phrases_Raise (partition : list (list string)) (g g' : globals)
    (e : exn) :
  part_to_phrases partition g = (g', Raise e)
  ↔ g' = g
    ∧ ∃ pre block post,
        partition = pre ++ block :: post
        ∧ Forall (λ block', is_Some (CMPD_INVERTED g !! block')) pre
        ∧ CMPD_INVERTED g !! block = None
        ∧ e = KeyError (KeyTuple block).
Proof.
  rewrite part_to_phrases_run. split.
  - destruct (lookup_each _ _ partition) as [buckets|e'] eqn:Hlookup; [done|].
    intros [= -> ->]. split; [done|].
    by apply lookup_each_Raise_first in Hlookup.
  - intros (-> & pre & block & post & -> & Hpre & Hblock & ->).
    by rewrite lookup_each_first.
Qed.

(** X8. On the index built from the table, a partition all of whose blocks
    have buckets gives at least one phrase: the phrase reconstructor never
    returns the empty list, and the number of its phrases is the product of
    the sizes of the buckets of the blocks. *)
Theorem part_to_phrases_nonempty (partition : list (list string))
    (g g' : globals) (phrases : list string) :
  index_built g →
  part_to_phrases partition g = (g', Ok phrases) →
  phrases ≠ []
  ∧ length phrases
    = pool_sizes ((λ block, bucket_of (CMPD g) block) <$> partition).
Proof.
  intros Hg. rewrite part_to_phrases_run.
  destruct (lookup_each _ _ partition) as [buckets|e] eqn:Hlookup; [|done].
  intros [= <- <-]. apply lookup_each_Ok in Hlookup.
  assert (buckets = (λ block, bucket_of (CMPD g) block) <$> partition
          ∧ Forall (λ bucket, bucket ≠ []) buckets) as [-> Hne].
  { rewrite Hg in Hlookup.
    induction Hlookup as [|block bucket partition buckets Hb _ [IH1 IH2]];
      [by split|].
    rewrite lookup_invert_CMPD in Hb. case_decide as Hnil; [done|].
    injection Hb as <-. rewrite fmap_cons, IH1. split; [done|].
    constructor; [done|]. by rewrite <- IH1. }
  rewrite length_fmap, length_cross. split; [|done].
  intros Hnil%(f_equal length). rewrite length_fmap, length_cross in Hnil.
  simpl in Hnil. clear Hlookup. revert Hnil.
  induction Hne as [|bucket buckets Hb _ IH]; simpl; [done|].
  destruct bucket; [done|]. simpl. lia.
Qed.

Lemma part_to_phrases_nonempty_witness :
  let g := module_init Sample.cmudict in
  let partition := [["AY1"]; ["S"; "K"; "R"; "IY1"; "M"]] in
  (index_built g
   ∧ part_to_phrases partition g = (g, Ok ["i scream"; "eye scream"]))
  ∧ ["i scream"; "eye scream"] ≠ []
  ∧ length ["i scream"; "eye scream"]
    = pool_sizes ((λ block, bucket_of (CMPD g) block) <$> partition).
Proof.
  intros g partition.
  assert (index_built g) as Hg by reflexivity.
  assert (part_to_phrases partition g = (g, Ok ["i scream"; "eye scream"]))
    as Hrun by (vm_compute; reflexivity).
  split; [by split|].
  exact (part_to_phrases_nonempty partition g g _ Hg Hrun).
Defined.

(** ** The loop over pronunciations and partitions *)

(** X9. The loop never raises, whatever the index holds: it returns the
    contributions of all partitions of all pronunciations, in order, prints
    one line, which gives the number of pronunciations, and leaves the table
    and the index as they were. *)
Theorem get_phrases_never_raises (phrase_pronunciations : list (list string))
    (g : globals) :
  ∃ g' phrases,
    get_phrases phrase_pronunciations g = (g', Ok phrases)
    ∧ phrases = contributions g phrase_pronunciations
    ∧ CMPD g' = CMPD g
    ∧ CMPD_INVERTED g' = CMPD_INVERTED g
    ∧ stdout g' = stdout g ++ [looking_over (length phrase_pronunciations)].
Proof. rewrite get_phrases_run. eexists _, _. by split_and!. Qed.

(** X10. The phrases found for two lists of pronunciations set one after the
    other are the phrases found for the first followed by those found for the
    second. *)
Theorem get_phrases_app (pps1 pps2 : list (list string)) (g : globals) :
  ∃ phrases1 phrases2,
    (get_phrases pps1 g).2 = Ok phrases1
    ∧ (get_phrases pps2 g).2 = Ok phrases2
    ∧ (get_phrases (pps1 ++ pps2) g).2 = Ok (phrases1 ++ phrases2).
Proof.
  rewrite !get_phrases_run. eexists _, _. split_and!; [done..|].
  simpl. unfold contributions. by rewrite bind_app.
Qed.

(** ** The search, continued *)

Lemma partitions_join {A} (sequence : list A) (part : list (list A)) :
  part ∈ partitions sequence → mjoin part = sequence.
Proof.
  destruct sequence as [|x sequence].
  - change (partitions []) with [[@nil A]].
    by intros ->%list_elem_of_singleton.
  - intros Hpart. by apply elem_of_partitions in Hpart as [_ ?].
Qed.

Lemma contribution_sound g part phrase :
  index_built g → phrase ∈ contribution g part →
  ∃ words, Forall2 (λ word block, pronounced (CMPD g) word block) words part
           ∧ phrase = join " " words.
Proof.
  intros Hg. unfold contribution. rewrite part_to_phrases_run. simpl.
  destruct (lookup_each _ _ part) as [buckets|e] eqn:Hlookup;
    [|by intros ?%elem_of_nil].
  intros (words & -> & Hwords%elem_of_cross)%list_elem_of_fmap.
  exists words. split; [|done]. apply lookup_each_Ok in Hlookup.
  rewrite Hg in Hlookup. clear Hg. revert words Hwords.
  induction Hlookup as [|block bucket part buckets Hb _ IH]; intros words Hwords.
  - apply Forall2_nil_inv_r in Hwords as ->. constructor.
  - apply Forall2_cons_inv_r in Hwords as (word & words' & Hword & Hws & ->).
    constructor; [|by apply IH].
    rewrite lookup_invert_CMPD in Hb. case_decide; [done|]. injection Hb as <-.
    by apply elem_of_pairs, elem_of_bucket_of.
Qed.

Lemma contribution_complete g (words : list string) (combo : list (list string)) :
  index_built g →
  Forall2 (λ word block, pronounced (CMPD g) word block) words combo →
  join " " words ∈ contribution g combo.
Proof.
  intros Hg Hwords. unfold contribution. rewrite part_to_phrases_run. simpl.
  assert (Forall2 (λ pronunciation word,
                     word ∈ bucket_of (CMPD g) pronunciation) combo words)
    as Hbuckets.
  { induction Hwords as [|word block words combo Hword _ IH]; constructor;
      [|done]. by apply elem_of_bucket_of, elem_of_pairs. }
  rewrite (lookup_each_buckets g combo words) by done.
  apply list_elem_of_fmap_2, elem_of_cross.
  clear -Hbuckets. induction Hbuckets; constructor; done.
Qed.

(** X11. Every phrase the search returns sounds like the input: when the
    index is the one built from the table, a returned phrase is the join of
    words that are listed in the table with pronunciations whose
    concatenation is one of the pronunciations of the input phrase. *)
Theorem wordsmith_sound (lower : string → string)
    (word_tokenize : string → list string) (phrase : string) (g g' : globals)
    (phrases : list string) (found : string) :
  index_built g →
  wordsmith lower word_tokenize phrase g = (g', Ok phrases) →
  found ∈ phrases →
  ∃ word_pronunciations words pronunciations,
    get_word_pronunciations (word_tokenize (lower phrase)) g
    = (g, Ok word_pronunciations)
    ∧ mjoin pronunciations ∈ get_phrase_pronunciations word_pronunciations
    ∧ Forall2 (λ word pronunciation, pronounced (CMPD g) word pronunciation)
              words pronunciations
    ∧ found = join " " words.
Proof.
  intros Hg. rewrite wordsmith_run.
  destruct (lookup_each _ _ _) as [wps|e] eqn:Hlookup; [|done].
  simpl. intros [= _ <-] Hfound. unfold contributions in Hfound.
  apply list_elem_of_bind in Hfound as (pron & Hfound & Hpron).
  apply list_elem_of_bind in Hfound as (part & Hfound & Hpart).
  apply contribution_sound in Hfound as (words & Hwords & ->); [|done].
  exists wps, words, part. split_and!; [|by rewrite (partitions_join pron)|done..].
  by rewrite get_word_pronunciations_run, Hlookup.
Qed.

(** X12. Every list of words that sounds like the input is found: when the
    index is the one built from the table and the word lookups succeed, the
    join of at least one word, the words listed in the table with nonempty
    pronunciations whose concatenation is one of the pronunciations of the
    input phrase, is among the phrases the search returns. *)
Theorem wordsmith_complete (lower : string → string)
    (word_tokenize : string → list string) (phrase : string) (g : globals)
    (word_pronunciations : list (list (list string)))
    (words : list string) (pronunciations : list (list string)) :
  index_built g →
  get_word_pronunciations (word_tokenize (lower phrase)) g
  = (g, Ok word_pronunciations) →
  mjoin pronunciations ∈ get_phrase_pronunciations word_pronunciations →
  Forall2 (λ word pronunciation, pronounced (CMPD g) word pronunciation)
          words pronunciations →
  Forall (λ pronunciation, pronunciation ≠ []) pronunciations →
  words ≠ [] →
  ∃ g' phrases,
    wordsmith lower word_tokenize phrase g = (g', Ok phrases)
    ∧ join " " words ∈ phrases.
Proof.
  intros Hg Hlookup Hpron Hwords Hblocks Hne.
  rewrite get_word_pronunciations_run in Hlookup. injection Hlookup as Hlookup.
  rewrite wordsmith_run, Hlookup. eexists _, _. split; [done|].
  simpl. unfold contributions. apply list_elem_of_bind.
  exists (mjoin pronunciations). split; [|done].
  apply list_elem_of_bind. exists pronunciations.
  split; [by apply contribution_complete|].
  apply elem_of_partitions; [|done].
  destruct Hwords as [|word p words' ps' _ _]; [done|].
  apply Forall_cons in Hblocks as [Hp _]. simpl. by destruct p.
Qed.

Lemma wordsmith_sound_witness :
  let g := module_init Sample.cmudict in
  let g' := printed g (looking_over 1) in
  let phrases := ["i scream"; "eye scream"; "ice cream"] in
  (index_built g
   ∧ wordsmith Sample.lower Sample.word_tokenize "Ice cream" g = (g', Ok phrases)
   ∧ "eye scream" ∈ phrases)
  ∧ ∃ word_pronunciations words pronunciations,
      get_word_pronunciations
        (Sample.word_tokenize (Sample.lower "Ice cream")) g
      = (g, Ok word_pronunciations)
      ∧ mjoin pronunciations ∈ get_phrase_pronunciations word_pronunciations
      ∧ Forall2 (λ word pronunciation, pronounced (CMPD g) word pronunciation)
                words pronunciations
      ∧ "eye scream" = join " " words.
Proof.
  intros g g' phrases.
  assert (index_built g) as Hg by reflexivity.
  assert (wordsmith Sample.lower Sample.word_tokenize "Ice cream" g
          = (g', Ok phrases)) as Hrun by (vm_compute; reflexivity).
  assert ("eye scream" ∈ phrases) as Hin
    by apply list_elem_of_further, list_elem_of_here.
  split; [by split_and!|].
  exact (wordsmith_sound Sample.lower Sample.word_tokenize "Ice cream" g g'
           phrases "eye scream" Hg Hrun Hin).
Defined.

Lemma sample_pronounced word its_pronunciations pronunciation :
  dict_getitem Sample.cmudict word = Some its_pronunciations →
  pronunciation ∈ its_pronunciations →
  pronounced Sample.cmudict word pronunciation.
Proof. intros Hword%dict_getitem_Some Hp. by exists its_pronunciations. Qed.

Lemma wordsmith_complete_witness :
  let g := module_init Sample.cmudict in
  let word_pronunciations := [[["AY1"; "S"]]; [["K"; "R"; "IY1"; "M"]]] in
  let words := ["i"; "scream"] in
  let pronunciations := [["AY1"]; ["S"; "K"; "R"; "IY1"; "M"]] in
  (index_built g
   ∧ get_word_pronunciations
       (Sample.word_tokenize (Sample.lower "Ice cream")) g
     = (g, Ok word_pronunciations)
   ∧ mjoin pronunciations ∈ get_phrase_pronunciations word_pronunciations
   ∧ Forall2 (λ word pronunciation, pronounced (CMPD g) word pronunciation)
             words pronunciations
   ∧ Forall (λ pronunciation, pronunciation ≠ []) pronunciations
   ∧ words ≠ [])
  ∧ ∃ g' phrases,
      wordsmith Sample.lower Sample.word_tokenize "Ice cream" g
      = (g', Ok phrases)
      ∧ "i scream" ∈ phrases.
Proof.
  intros g wps words prons.
  assert (index_built g) as Hg by reflexivity.
  assert (get_word_pronunciations
            (Sample.word_tokenize (Sample.lower "Ice cream")) g
          = (g, Ok wps)) as Hlookup by (vm_compute; reflexivity).
  assert (mjoin prons ∈ get_phrase_pronunciations wps) as Hpron
    by apply list_elem_of_here.
  assert (Forall2 (λ word pronunciation,
                     pronounced (CMPD g) word pronunciation) words prons)
    as Hwords.
  { repeat constructor.
    - by apply (sample_pronounced "i" [["AY1"]]); [|apply list_elem_of_here].
    - by apply (sample_pronounced "scream" [["S"; "K"; "R"; "IY1"; "M"]]);
        [|apply list_elem_of_here]. }
  assert (Forall (λ pronunciation, pronunciation ≠ []) prons) as Hblocks
    by (repeat constructor; discriminate).
  assert (words ≠ []) as Hne by discriminate.
  split; [by split_and!|].
  exact (wordsmith_complete Sample.lower Sample.word_tokenize "Ice cream" g
           wps words prons Hg Hlookup Hpron Hwords Hblocks Hne).
Defined.

(** X13. The search raises only for an unknown word: the exception is the
    KeyError of the first token without an entry in the table, never that of
    a block without a bucket, and the state, standard output included, is the
    one the search started in. *)
Theorem wordsmith_Raise (lower : string → string)
    (word_tokenize : string → list string) (phrase : string) (g g' : globals)
    (e : exn) :
  wordsmith lower word_tokenize phrase g = (g', Raise e)
  ↔ g' = g
    ∧ ∃ pre word post,
        word_tokenize (lower phrase) = pre ++ word :: post
        ∧ Forall (λ word', is_Some (dict_getitem (CMPD g) word')) pre
        ∧ dict_getitem (CMPD g) word = None
        ∧ e = KeyError (KeyStr word).
Proof.
  rewrite wordsmith_run. split.
  - destruct (lookup_each _ _ _) as [wps|e'] eqn:Hlookup; [done|].
    intros [= -> ->]. split; [done|].
    by apply lookup_each_Raise_first in Hlookup.
  - intros (-> & pre & word & post & -> & Hpre & Hword & ->).
    by rewrite lookup_each_first.
Qed.

(** X14. A search that returns has changed neither the table nor the index
    and has printed one line, which gives the product of the numbers of
    pronunciations of the tokens as the number of pronunciations looked
    over. *)
Theorem wordsmith_prints (lower : string → string)
    (word_tokenize : string → list string) (phrase : string) (g g' : globals)
    (phrases : list string) :
  wordsmith lower word_tokenize phrase g = (g', Ok phrases) →
  ∃ word_pronunciations,
    Forall2 (λ word its_pronunciations,
               dict_getitem (CMPD g) word = Some its_pronunciations)
            (word_tokenize (lower phrase)) word_pronunciations
    ∧ CMPD g' = CMPD g
    ∧ CMPD_INVERTED g' = CMPD_INVERTED g
    ∧ stdout g' = stdout g ++ [looking_over (pool_sizes word_pronunciations)].
Proof.
  rewrite wordsmith_run.
  destruct (lookup_each _ _ _) as [wps|e] eqn:Hlookup; [|done].
  simpl. intros [= <- _]. exists wps. split_and!; [|done..|].
  - by apply lookup_each_Ok in Hlookup.
  - simpl. by rewrite get_phrase_pronunciations_cross, length_fmap, length_cross.
Qed.

Lemma wordsmith_prints_witness :
  let g := module_init Sample.cmudict in
  let g' := printed g (looking_over 2) in
  wordsmith Sample.lower Sample.word_tokenize "pajamas here" g
  = (g', Ok ["pajamas hear"; "pajamas here"; "pajamas hear"; "pajamas here"])
  ∧ ∃ word_pronunciations,
      Forall2 (λ word its_pronunciations,
                 dict_getitem (CMPD g) word = Some its_pronunciations)
              (Sample.word_tokenize (Sample.lower "pajamas here"))
              word_pronunciations
      ∧ CMPD g' = CMPD g
      ∧ CMPD_INVERTED g' = CMPD_INVERTED g
      ∧ stdout g'
        = stdout g ++ [looking_over (pool_sizes word_pronunciations)].
Proof.
  intros g g'.
  assert (wordsmith Sample.lower Sample.word_tokenize "pajamas here" g
          = (g', Ok ["pajamas hear"; "pajamas here";
                     "pajamas hear"; "pajamas here"])) as Hrun
    by (vm_compute; reflexivity).
  split; [exact Hrun|].
  exact (wordsmith_prints Sample.lower Sample.word_tokenize "pajamas here"
           g g' _ Hrun).
Defined.

(** X15. The search for a single word finds its homophones: when the index is
    the one built from the table, every word that the table lists with a
    nonempty pronunciation of the searched word is among the phrases
    returned. *)
Theorem wordsmith_homophones (lower : string → string)
    (word_tokenize : string → list string) (phrase : string) (g : globals)
    (word other : string) (its_pronunciations : list (list string))
    (pronunciation : list string) :
  index_built g →
  word_tokenize (lower phrase) = [word] →
  dict_getitem (CMPD g) word = Some its_pronunciations →
  pronunciation ∈ its_pronunciations →
  pronunciation ≠ [] →
  pronounced (CMPD g) other pronunciation →
  ∃ g' phrases,
    wordsmith lower word_tokenize phrase g = (g', Ok phrases)
    ∧ other ∈ phrases.
Proof.
  intros Hg Htokens Hword Hp Hne Hother.
  rewrite wordsmith_run, Htokens. simpl. rewrite Hword.
  eexists _, _. split; [done|].
  unfold contributions. apply list_elem_of_bind.
  exists pronunciation. split.
  - apply list_elem_of_bind. exists [pronunciation]. split.
    + apply (contribution_complete g [other] [pronunciation]); [done|].
      by repeat constructor.
    + apply elem_of_partitions; [done|]. split; [by repeat constructor|].
      simpl. apply app_nil_r.
  - rewrite get_phrase_pronunciations_cross, cross_singleton.
    rewrite <- list_fmap_compose. apply list_elem_of_fmap.
    exists pronunciation. split; [|done]. simpl. by rewrite app_nil_r.
Qed.

Lemma wordsmith_homophones_witness :
  let g := module_init Sample.cmudict in
  (index_built g
   ∧ Sample.word_tokenize (Sample.lower "Here") = ["here"]
   ∧ dict_getitem (CMPD g) "here" = Some [["HH"; "IY1"; "R"]]
   ∧ ["HH"; "IY1"; "R"] ∈ [["HH"; "IY1"; "R"]]
   ∧ ["HH"; "IY1"; "R"] ≠ []
   ∧ pronounced (CMPD g) "hear" ["HH"; "IY1"; "R"])
  ∧ ∃ g' phrases,
      wordsmith Sample.lower Sample.word_tokenize "Here" g = (g', Ok phrases)
      ∧ "hear" ∈ phrases.
Proof.
  intros g.
  assert (index_built g) as Hg by reflexivity.
  assert (Sample.word_tokenize (Sample.lower "Here") = ["here"]) as Htokens
    by reflexivity.
  assert (dict_getitem (CMPD g) "here" = Some [["HH"; "IY1"; "R"]]) as Hword
    by reflexivity.
  assert (["HH"; "IY1"; "R"] ∈ [["HH"; "IY1"; "R"]]) as Hp
    by apply list_elem_of_here.
  assert (["HH"; "IY1"; "R"] ≠ []) as Hne by discriminate.
  assert (pronounced (CMPD g) "hear" ["HH"; "IY1"; "R"]) as Hother.
  { by apply (sample_pronounced "hear" [["HH"; "IY1"; "R"]]);
      [|apply list_elem_of_here]. }
  split; [by split_and!|].
  exact (wordsmith_homophones Sample.lower Sample.word_tokenize "Here" g
           "here" "hear" _ _ Hg Htokens Hword Hp Hne Hother).
Defined.

(** ** The script *)

Lemma printed_all_printed g line lines :
  printed_all (printed g line) lines = printed_all g (line :: lines).
Proof. unfold printed_all, printed. simpl. by rewrite <- app_assoc. Qed.

Lemma print_each_run (phrases : list string) (g : globals) :
  for_in phrases (λ _ phrase, print phrase) tt g
  = (printed_all g phrases, Ok tt).
Proof.
  revert g. induction phrases as [|phrase phrases IH]; intros g.
  - simpl. unfold mret, M_ret, printed_all. rewrite app_nil_r. by destruct g.
  - cbn [for_in]. unfold mbind at 1, M_bind at 1, print at 1.
    fold (printed g phrase). by rewrite IH, printed_all_printed.
Qed.

Lemma main_run lower word_tokenize phrase g :
  Script.main lower word_tokenize phrase g
  = match lookup_each (dict_getitem (CMPD g)) (λ word, KeyError (KeyStr word))
            (word_tokenize (lower phrase)) with
    | Ok word_pronunciations =>
        let pps := get_phrase_pronunciations word_pronunciations in
        (printed_all g (finding_line phrase :: looking_over (length pps)
                        :: done_line :: contributions g pps), Ok tt)
    | Raise e => (printed g (finding_line phrase), Raise e)
    end.
Proof.
  unfold Script.main. unfold mbind at 1, M_bind at 1, print at 1.
  fold (finding_line phrase). fold (printed g (finding_line phrase)).
  unfold mbind at 1, M_bind at 1. rewrite wordsmith_run.
  change (CMPD (printed g (finding_line phrase))) with (CMPD g).
  destruct (lookup_each _ _ _) as [wps|e]; [|done].
  cbv zeta. unfold mbind at 1, M_bind at 1, print at 1.
  fold done_line.
  fold (printed (printed (printed g (finding_line phrase))
                   (looking_over (length (get_phrase_pronunciations wps))))
          done_line).
  rewrite print_each_run, !printed_all_printed.
  by rewrite (contributions_ext (printed g _) g).
Qed.

(** X16. When the search returns, the script prints, after what was printed
    before, the line that names the phrase as it was typed, the line of the
    search, the line that announces the results and then the phrases found,
    one per line and in the order of the result list; it raises nothing and
    changes neither the table nor the index. *)
Theorem main_prints_phrases (lower : string → string)
    (word_tokenize : string → list string) (phrase : string) (g g1 : globals)
    (phrases : list string) :
  wordsmith lower word_tokenize phrase g = (g1, Ok phrases) →
  ∃ line,
    stdout g1 = stdout g ++ [line]
    ∧ Script.main lower word_tokenize phrase g
      = (printed_all g (finding_line phrase :: line :: done_line :: phrases),
         Ok tt).
Proof.
  rewrite main_run, wordsmith_run.
  destruct (lookup_each _ _ _) as [wps|e]; [|done].
  cbv zeta. intros [= <- <-]. by eexists.
Qed.

Lemma main_prints_phrases_witness :
  let g := module_init Sample.cmudict in
  wordsmith Sample.lower Sample.word_tokenize "Here" g
  = (printed g (looking_over 1), Ok ["hear"; "here"])
  ∧ stdout (Script.main Sample.lower Sample.word_tokenize "Here" g).1
    = [finding_line "Here"; looking_over 1; done_line; "hear"; "here"]
  ∧ (Script.main Sample.lower Sample.word_tokenize "Here" g).2 = Ok tt.
Proof.
  intros g.
  assert (wordsmith Sample.lower Sample.word_tokenize "Here" g
          = (printed g (looking_over 1), Ok ["hear"; "here"])) as Hrun
    by (vm_compute; reflexivity).
  split; [exact Hrun|].
  destruct (main_prints_phrases Sample.lower Sample.word_tokenize "Here" g
              _ _ Hrun) as (line & Hline & Hmain).
  injection Hline as <-. rewrite Hmain. by split.
Defined.

(** X17. When the search raises, the script has printed the line that names
    the phrase and nothing else, and the exception of the search leaves the
    script uncaught: no result line is printed for an unknown word. *)
Theorem main_unknown_word (lower : string → string)
    (word_tokenize : string → list string) (phrase : string) (g g1 : globals)
    (e : exn) :
  wordsmith lower word_tokenize phrase g = (g1, Raise e) →
  Script.main lower word_tokenize phrase g
  = (printed g (finding_line phrase), Raise e).
Proof.
  rewrite main_run, wordsmith_run.
  destruct (lookup_each _ _ _) as [wps|e']; [done|]. by intros [= _ ->].
Qed.

Lemma main_unknown_word_witness :
  let g := module_init Sample.cmudict in
  wordsmith Sample.lower Sample.word_tokenize "Ice zzz cream" g
  = (g, Raise (KeyError (KeyStr "zzz")))
  ∧ Script.main Sample.lower Sample.word_tokenize "Ice zzz cream" g
    = (printed g (finding_line "Ice zzz cream"),
       Raise (KeyError (KeyStr "zzz"))).
Proof.
  intros g.
  assert (wordsmith Sample.lower Sample.word_tokenize "Ice zzz cream" g
          = (g, Raise (KeyError (KeyStr "zzz")))) as Hrun
    by (vm_compute; reflexivity).
  split; [exact Hrun|].
  exact (main_unknown_word Sample.lower Sample.word_tokenize "Ice zzz cream"
           g g _ Hrun).
Defined.

Example main_stdout :
  stdout (Script.main Sample.lower Sample.word_tokenize "Ice cream"
            (module_init Sample.cmudict)).1
  = ["Finding phrases homophonous to Ice cream..." +:+ Script.newline;
     "Looking over 1 different pronunciations of sentence...";
     Script.newline +:+ "Done! See below:";
     "i scream"; "eye scream"; "ice cream"].
Proof. vm_compute. reflexivity. Qed.
